(** * otel-web: the instrumentation plugins, embedded and verified

    The plugins of this package only talk to the tracing SDK through a narrow
    surface ([startSpan], [setStatus], [setAttribute(s)], [recordException],
    [end]).  The SDK is therefore modelled as the chronological log of the calls
    the plugins make on it, together with a supply of fresh span handles; every
    plugin function becomes a computation in the state monad over that log.

    - [Js]            the fragments of the JavaScript runtime the plugins use
    - [Otel]          the tracing API surface (call log, span handles)
    - [Router]        src/plugins/tanstack-router.ts
    - [Query]         the data-fetch cache plugin (createQueryPlugin)
    - [Fetch]         the HTTP plugin (createFetchPlugin)
    - [DocumentLoad]  src/plugins/document-load.ts *)

From Stdlib Require Import ZArith String Ascii List Bool Lia.
From Stdlib Require Import Floats.PrimFloat.
From stdpp Require Import base option list gmap strings pretty.

Local Open Scope string_scope.
Local Open Scope list_scope.

(* ====================================================================== *)
(** ** JavaScript runtime fragments *)
(* ====================================================================== *)

Module Js.

(** A JavaScript string is a Rocq string, one character per code unit:
    the strings covered are those whose code units are below 256. *)

(** A runtime value as far as [instanceof Error] can tell it apart: an
    [Error] object carries its [message]; anything else is kept as an
    opaque tag. *)
Inductive Value :=
| ErrorObj (message : string)
| NonError (tag : string).

Definition instanceofError (v : Value) : bool :=
  match v with ErrorObj _ => true | NonError _ => false end.

(** The exception the platform throws for an argument it refuses.  It is an
    [Error]; the wording of its message is the engine's own. *)
Definition TypeError (message : string) : Value := ErrorObj message.

(** [String.prototype.toUpperCase] / [toLowerCase].  They are exact on
    strings of ASCII characters, which HTTP methods and header names are;
    a character outside that range is left as it is here, where the
    runtime follows the Unicode case mappings. *)
Definition upper_ascii (c : ascii) : ascii :=
  let n := nat_of_ascii c in
  if (97 <=? n)%nat && (n <=? 122)%nat then ascii_of_nat (n - 32) else c.

Definition lower_ascii (c : ascii) : ascii :=
  let n := nat_of_ascii c in
  if (65 <=? n)%nat && (n <=? 90)%nat then ascii_of_nat (n + 32) else c.

Fixpoint toUpperCase (s : string) : string :=
  match s with
  | EmptyString => EmptyString
  | String c r => String (upper_ascii c) (toUpperCase r)
  end.

Fixpoint toLowerCase (s : string) : string :=
  match s with
  | EmptyString => EmptyString
  | String c r => String (lower_ascii c) (toLowerCase r)
  end.

(** Truthiness of a possibly-undefined string ([!x] is its negation):
    [undefined] and the empty string are falsy. *)
Definition truthy (x : option string) : bool :=
  match x with
  | None => false
  | Some s => negb (String.eqb s "")
  end.

(** [sub] occurs somewhere inside [s]. *)
Definition contains (s sub : string) : Prop :=
  exists pre post, s = pre +:+ sub +:+ post.

(** A [RegExp] without the [g]/[y] flags, seen through [test]: the result
    of one call depends on the string only.  (With one of these flags
    [test] also reads and moves [lastIndex], so that two calls on the same
    string may differ; that state is not modelled.) *)
Record RegExp := { test : string -> bool }.

End Js.

(* ====================================================================== *)
(** ** The tracing API surface *)
(* ====================================================================== *)

Module Otel.

(** A span handle. *)
Definition Span := nat.

Inductive SpanStatusCode := UNSET | OK | ERROR.

Record SpanStatus := { code : SpanStatusCode; message : option string }.

Inductive AttributeValue :=
| AStr (s : string)
| AInt (z : Z)
| ANum (f : float)
| ABool (b : bool).

Definition Attributes := list (string * AttributeValue).

(** One call made on the tracer or on a span handle. *)
Inductive Call :=
| StartSpan (s : Span) (name : string) (startTime : option float)
            (attributes : Attributes)
| SetAttribute (s : Span) (key : string) (v : AttributeValue)
| SetAttributes (s : Span) (attributes : Attributes)
| SetStatus (s : Span) (status : SpanStatus)
| RecordException (s : Span) (e : Js.Value)
| EndSpan (s : Span) (endTime : option float).

(** The tracer: every call so far, oldest first, and the next handle. *)
Record Tracer := { calls : list Call; fresh : Span }.

Definition M (A : Type) : Type := Tracer -> A * Tracer.

#[export] Instance M_ret : MRet M := fun A a t => (a, t).
#[export] Instance M_bind : MBind M :=
  fun A B k m t => let '(a, t') := m t in k a t'.

Definition call (c : Call) : M unit :=
  fun t => (tt, {| calls := calls t ++ [c]; fresh := fresh t |}).

Definition startSpan (name : string) (startTime : option float)
           (attributes : Attributes) : M Span :=
  fun t =>
    (fresh t,
     {| calls := calls t ++ [StartSpan (fresh t) name startTime attributes];
        fresh := S (fresh t) |}).

Definition setAttribute (s : Span) (k : string) (v : AttributeValue) : M unit :=
  call (SetAttribute s k v).
Definition setAttributes (s : Span) (a : Attributes) : M unit :=
  call (SetAttributes s a).
Definition setStatus (s : Span) (c : SpanStatusCode) (msg : option string)
  : M unit :=
  call (SetStatus s {| code := c; message := msg |}).
Definition recordException (s : Span) (e : Js.Value) : M unit :=
  call (RecordException s e).
Definition endSpan (s : Span) (endTime : option float) : M unit :=
  call (EndSpan s endTime).

(** [if (cond) { body }] *)
Definition when (b : bool) (body : M unit) : M unit :=
  if b then body else mret tt.

(** The calls a computation adds to the log. *)
Definition emitted {A} (m : M A) (t : Tracer) : list Call :=
  drop (length (calls t)) (calls (snd (m t))).

Definition new_tracer : Tracer := {| calls := []; fresh := 0 |}.

(** The span a call is made on. *)
Definition target (c : Call) : Span :=
  match c with
  | StartSpan s _ _ _ | SetAttribute s _ _ | SetAttributes s _
  | SetStatus s _ | RecordException s _ | EndSpan s _ => s
  end.

Definition is_setStatus (c : Call) : bool :=
  match c with SetStatus _ _ => true | _ => false end.
Definition is_recordException (c : Call) : bool :=
  match c with RecordException _ _ => true | _ => false end.
Definition is_end_of (s : Span) (c : Call) : bool :=
  match c with EndSpan s' _ => Nat.eqb s s' | _ => false end.

End Otel.

Import Otel.

(* ====================================================================== *)
(** ** Navigation plugin (src/plugins/tanstack-router.ts) *)
(* ====================================================================== *)

Module Router.

Record Location := { pathname : string }.

Record NavigationEvent := {
  type : string;
  fromLocation : option Location;
  toLocation : Location;
  pathChanged : bool
}.

Inductive EventType := onBeforeNavigate | onResolved.

(** The router ([RouterLike]), as far as the plugin uses it: [subscribe]
    registers a listener for an event type and returns the handle that
    cancels the registration. *)
Record RouterLike := {
  next_handle : nat;
  subscribed : list (nat * EventType)
}.

Definition subscribe (ty : EventType) (r : RouterLike) : nat * RouterLike :=
  (next_handle r,
   {| next_handle := S (next_handle r);
      subscribed := subscribed r ++ [(next_handle r, ty)] |}).

(** [unsub?.()] *)
Definition unsubscribe (unsub : option nat) (r : RouterLike) : RouterLike :=
  match unsub with
  | Some h =>
      {| next_handle := next_handle r;
         subscribed := List.filter (fun s => negb (Nat.eqb s.1 h)) (subscribed r) |}
  | None => r
  end.

(** The closure variables of [createRouterPlugin]. *)
Record State := {
  unsubBeforeNavigate : option nat;
  unsubResolved : option nat;
  activeSpan : option Span
}.

Definition init : State :=
  {| unsubBeforeNavigate := None; unsubResolved := None; activeSpan := None |}.

Definition set_activeSpan (a : option Span) (st : State) : State :=
  {| unsubBeforeNavigate := unsubBeforeNavigate st;
     unsubResolved := unsubResolved st;
     activeSpan := a |}.

(** The listener subscribed to "onBeforeNavigate". *)
Definition beforeNavigateListener (event : NavigationEvent) (st : State)
  : M State :=
  match activeSpan st with
  | Some s => endSpan s None
  | None => mret tt
  end;;
  s ← startSpan ("navigate " +:+ pathname (toLocation event)) None
        [("router.from",
          AStr (from_option pathname "" (fromLocation event)));
         ("router.to", AStr (pathname (toLocation event)));
         ("router.path_changed", ABool (pathChanged event))];
  mret (set_activeSpan (Some s) st).

(** The listener subscribed to "onResolved". *)
Definition resolvedListener (st : State) : M State :=
  match activeSpan st with
  | Some s =>
      setStatus s OK None;;
      endSpan s None;;
      mret (set_activeSpan None st)
  | None => mret st
  end.

Definition setup (w : State * RouterLike) : State * RouterLike :=
  let '(st, r) := w in
  let '(u1, r) := subscribe onBeforeNavigate r in
  let '(u2, r) := subscribe onResolved r in
  ({| unsubBeforeNavigate := Some u1;
      unsubResolved := Some u2;
      activeSpan := activeSpan st |}, r).

Definition teardown (w : State * RouterLike) : M (State * RouterLike) :=
  let '(st, r) := w in
  let r := unsubscribe (unsubBeforeNavigate st) r in
  let r := unsubscribe (unsubResolved st) r in
  match activeSpan st with
  | Some s => endSpan s None;; mret (set_activeSpan None st, r)
  | None => mret (st, r)
  end.

(** *** The plugin driven by the router *)

Definition EventType_eqb (a b : EventType) : bool :=
  match a, b with
  | onBeforeNavigate, onBeforeNavigate | onResolved, onResolved => true
  | _, _ => false
  end.

(** The registrations the router holds for an event type. *)
Definition registrations (ty : EventType) (r : RouterLike)
  : list (nat * EventType) :=
  List.filter (fun s => EventType_eqb s.2 ty) (subscribed r).

(** The listener the plugin registers for an event type; "onResolved"
    ignores its event. *)
Definition listener (ty : EventType) (event : NavigationEvent) (st : State)
  : M State :=
  match ty with
  | onBeforeNavigate => beforeNavigateListener event st
  | onResolved => resolvedListener st
  end.

(** The router emits an event: every listener registered for its type runs
    once, in registration order.  The registrations are read as this
    plugin's, which they are on a router only this plugin subscribed to. *)
Fixpoint notify {A} (regs : list A) (ty : EventType) (event : NavigationEvent)
         (st : State) : M State :=
  match regs with
  | [] => mret st
  | _ :: rest => st' ← listener ty event st; notify rest ty event st'
  end.

Definition emit (ty : EventType) (event : NavigationEvent)
           (w : State * RouterLike) : M (State * RouterLike) :=
  st' ← notify (registrations ty w.2) ty event w.1;
  mret (st', w.2).

(** What can happen to a plugin instance and its router. *)
Inductive Action :=
| Setup
| Teardown
| Emit (ty : EventType) (event : NavigationEvent).

Definition act (a : Action) (w : State * RouterLike)
  : M (State * RouterLike) :=
  match a with
  | Setup => mret (setup w)
  | Teardown => teardown w
  | Emit ty event => emit ty event w
  end.

Fixpoint run (actions : list Action) (w : State * RouterLike)
  : M (State * RouterLike) :=
  match actions with
  | [] => mret w
  | a :: rest => w' ← act a w; run rest w'
  end.

Definition new_router : RouterLike := {| next_handle := 0; subscribed := [] |}.

Definition is_Emit (a : Action) : bool :=
  match a with Emit _ _ => true | _ => false end.

(** Handles the router has given out are below the next one. *)
Definition handles_below_next (r : RouterLike) : Prop :=
  Forall (fun s => s.1 < next_handle r) (subscribed r).

End Router.

(* ====================================================================== *)
(** ** Data-fetch cache plugin (createQueryPlugin) *)
(* ====================================================================== *)

Module Query.

(** [setup] subscribes the two listeners below to the query cache and the
    mutation cache; the module describes what they do with the events the
    caches deliver. *)

(** A query or mutation key ([ReadonlyArray<unknown>]).  The plugin only
    ever passes a key to [JSON.stringify], so a key is represented by the
    text that call returns. *)
Record JsonArray := { JSON_stringify : string }.

Record QueryLike := { queryKey : JsonArray; queryHash : string }.

Record MutationOptions := { mutationKey : option JsonArray }.
Record MutationLike := { mutationId : Z; options : MutationOptions }.

(** [action?: { type: string; error?: unknown }] *)
Record Action := { action_type : string; error : option Js.Value }.

Record QueryCacheEvent := {
  q_type : string;
  query : QueryLike;
  q_action : option Action
}.

Record MutationCacheEvent := {
  m_type : string;
  mutation : option MutationLike;
  m_action : option Action
}.

(** The two pending-span tables of the plugin closure. *)
Record State := {
  querySpans : gmap string Span;
  mutationSpans : gmap Z Span
}.

Definition init : State := {| querySpans := ∅; mutationSpans := ∅ |}.

Definition set_querySpans (q : gmap string Span) (st : State) : State :=
  {| querySpans := q; mutationSpans := mutationSpans st |}.
Definition set_mutationSpans (m : gmap Z Span) (st : State) : State :=
  {| querySpans := querySpans st; mutationSpans := m |}.

(** [error instanceof Error ? error.message : "Unknown error"] *)
Definition error_message (e : option Js.Value) : string :=
  match e with
  | Some (Js.ErrorObj msg) => msg
  | _ => "Unknown error"
  end.

(** [if (error instanceof Error) span.recordException(error)] *)
Definition record_if_error (span : Span) (e : option Js.Value) : M unit :=
  match e with
  | Some (Js.ErrorObj msg) => recordException span (Js.ErrorObj msg)
  | _ => mret tt
  end.

(** The listener subscribed to the query cache. *)
Definition queryListener (event : QueryCacheEvent) (st : State) : M State :=
  match q_action event with
  | Some action =>
    if negb (String.eqb (q_type event) "updated") then mret st else
    let queryHash := queryHash (query event) in
    let queryKey := queryKey (query event) in
    let actionType := action_type action in
    if String.eqb actionType "fetch"
       && negb (bool_decide (is_Some (querySpans st !! queryHash))) then
      span ← startSpan ("query " +:+ JSON_stringify queryKey) None
               [("query.hash", AStr queryHash);
                ("query.key", AStr (JSON_stringify queryKey))];
      mret (set_querySpans (<[queryHash := span]> (querySpans st)) st)
    else if String.eqb actionType "success" then
      match querySpans st !! queryHash with
      | Some span =>
          setStatus span OK None;;
          endSpan span None;;
          mret (set_querySpans (delete queryHash (querySpans st)) st)
      | None => mret st
      end
    else if String.eqb actionType "error" then
      match querySpans st !! queryHash with
      | Some span =>
          setStatus span ERROR (Some (error_message (error action)));;
          record_if_error span (error action);;
          endSpan span None;;
          mret (set_querySpans (delete queryHash (querySpans st)) st)
      | None => mret st
      end
    else mret st
  | None => mret st
  end.

(** The listener subscribed to the mutation cache. *)
Definition mutationListener (event : MutationCacheEvent) (st : State)
  : M State :=
  match m_action event, mutation event with
  | Some action, Some mutation =>
    if negb (String.eqb (m_type event) "updated") then mret st else
    let mutationId := mutationId mutation in
    let mutationKey := mutationKey (options mutation) in
    let actionType := action_type action in
    if String.eqb actionType "pending"
       && negb (bool_decide (is_Some (mutationSpans st !! mutationId))) then
      span ← startSpan
               ("mutation " +:+
                  match mutationKey with
                  | Some k => JSON_stringify k
                  | None => pretty mutationId
                  end)
               None
               [("mutation.id", AInt mutationId);
                ("mutation.key",
                 AStr (match mutationKey with
                       | Some k => JSON_stringify k
                       | None => ""
                       end))];
      mret (set_mutationSpans (<[mutationId := span]> (mutationSpans st)) st)
    else if String.eqb actionType "success" then
      match mutationSpans st !! mutationId with
      | Some span =>
          setStatus span OK None;;
          endSpan span None;;
          mret (set_mutationSpans (delete mutationId (mutationSpans st)) st)
      | None => mret st
      end
    else if String.eqb actionType "error" then
      match mutationSpans st !! mutationId with
      | Some span =>
          setStatus span ERROR (Some (error_message (error action)));;
          record_if_error span (error action);;
          endSpan span None;;
          mret (set_mutationSpans (delete mutationId (mutationSpans st)) st)
      | None => mret st
      end
    else mret st
  | _, _ => mret st
  end.

(** What the two caches deliver to the plugin after [setup]. *)
Inductive CacheEvent :=
| QueryEvent (e : QueryCacheEvent)
| MutationEvent (e : MutationCacheEvent).

Definition deliver (ev : CacheEvent) (st : State) : M State :=
  match ev with
  | QueryEvent e => queryListener e st
  | MutationEvent e => mutationListener e st
  end.

Fixpoint run (evs : list CacheEvent) (st : State) : M State :=
  match evs with
  | [] => mret st
  | ev :: rest => st' ← deliver ev st; run rest st'
  end.

(** [for (const span of spans) span.end()] *)
Fixpoint end_all (spans : list Span) : M unit :=
  match spans with
  | [] => mret tt
  | span :: rest => endSpan span None;; end_all rest
  end.

(** [teardown], after the two unsubscriptions: every span of
    [querySpans.values()] is ended, then every span of
    [mutationSpans.values()], and both tables are cleared.  A [Map] yields
    its values in insertion order, which the tables here do not keep: the
    two enumerations are arguments, [values_in_order] saying what they
    enumerate. *)
Definition teardown (queryValues mutationValues : list Span) (st : State)
  : M State :=
  end_all queryValues;;
  let st := set_querySpans ∅ st in
  end_all mutationValues;;
  mret (set_mutationSpans ∅ st).

Definition values_in_order (queryValues mutationValues : list Span)
           (st : State) : Prop :=
  queryValues ≡ₚ (map_to_list (querySpans st)).*2
  /\ mutationValues ≡ₚ (map_to_list (mutationSpans st)).*2.

(** *** Reading the pending spans off the call log *)

(** The correlation key a span was started for. *)
Inductive CorrKey := QKey (hash : string) | MKey (id : Z).

#[export] Instance CorrKey_eq_dec : EqDecision CorrKey.
Proof. solve_decision. Defined.

Fixpoint attribute (k : string) (a : Attributes) : option AttributeValue :=
  match a with
  | [] => None
  | (k', v) :: rest => if String.eqb k k' then Some v else attribute k rest
  end.

Definition key_of (c : Call) : option CorrKey :=
  match c with
  | StartSpan _ _ _ a =>
      match attribute "query.hash" a, attribute "mutation.id" a with
      | Some (AStr h), _ => Some (QKey h)
      | _, Some (AInt i) => Some (MKey i)
      | _, _ => None
      end
  | _ => None
  end.

(** Spans started for key [k], oldest first. *)
Definition started (log : list Call) (k : CorrKey) : list Span :=
  omap (fun c => if decide (key_of c = Some k) then Some (target c) else None)
       log.

Definition ended (log : list Call) (s : Span) : bool :=
  existsb (is_end_of s) log.

(** Spans started for key [k] and not ended yet. *)
Definition open_spans (log : list Call) (k : CorrKey) : list Span :=
  List.filter (fun s => negb (ended log s)) (started log k).

Definition pending (st : State) (k : CorrKey) : option Span :=
  match k with
  | QKey h => querySpans st !! h
  | MKey i => mutationSpans st !! i
  end.

(** The invariant that ties the two tables to the log: handles in the log
    are below the next fresh one, a handle was started for one key only,
    and the open spans of a key are exactly its table entry. *)
Record Inv (st : State) (t : Tracer) : Prop := {
  inv_fresh : Forall (fun c => target c < fresh t) (calls t);
  inv_unique : forall s k k',
    s ∈ started (calls t) k -> s ∈ started (calls t) k' -> k = k';
  inv_open : forall k, open_spans (calls t) k = option_list (pending st k)
}.

(** The three shapes a delivery can take: nothing happens, a span is
    opened for a key with no entry, or the entry of a key is closed. *)
Inductive Step (st : State) (t : Tracer) : State -> Tracer -> Prop :=
| step_skip : Step st t st t
| step_open k name a st' t' :
    pending st k = None ->
    key_of (StartSpan (fresh t) name None a) = Some k ->
    calls t' = calls t ++ [StartSpan (fresh t) name None a] ->
    fresh t' = S (fresh t) ->
    (forall k', pending st' k'
                = if decide (k' = k) then Some (fresh t) else pending st k') ->
    Step st t st' t'
| step_close k s cs st' t' :
    pending st k = Some s ->
    calls t' = calls t ++ cs ->
    fresh t' = fresh t ->
    Forall (fun c => key_of c = None /\ target c = s) cs ->
    ended cs s = true ->
    (forall k', pending st' k'
                = if decide (k' = k) then None else pending st k') ->
    Step st t st' t'.

End Query.

(* ====================================================================== *)
(** ** Span lifetimes, read off the call log *)
(* ====================================================================== *)

Module Lifetime.

Definition is_startSpan (c : Call) : bool :=
  match c with StartSpan _ _ _ _ => true | _ => false end.

Definition is_endSpan (c : Call) : bool :=
  match c with EndSpan _ _ => true | _ => false end.

(** The spans started in the log, oldest first. *)
Definition started (log : list Call) : list Span :=
  map target (List.filter is_startSpan log).

(** The spans started and not ended yet. *)
Definition open (log : list Call) : list Span :=
  List.filter (fun s => negb (Query.ended log s)) (started log).

(** How often [end()] was called on span [s]. *)
Definition end_count (log : list Call) (s : Span) : nat :=
  length (List.filter (is_end_of s) log).

(** No call of [rest] is made on a span that [seen], or an earlier call of
    [rest], has ended. *)
Fixpoint unused_after_end (seen rest : list Call) : bool :=
  match rest with
  | [] => true
  | c :: rest' =>
      negb (Query.ended seen (target c)) && unused_after_end (seen ++ [c]) rest'
  end.

(** No call is made on a span after its [end()]. *)
Definition no_use_after_end (log : list Call) : bool :=
  unused_after_end [] log.

(** The log is well formed, its open spans are exactly [active], and no
    span was used after its end. *)
Definition tracks (active : list Span) (t : Tracer) : Prop :=
  Forall (fun c => target c < fresh t) (calls t)
  /\ open (calls t) = active
  /\ no_use_after_end (calls t) = true.

End Lifetime.

(* ====================================================================== *)
(** ** HTTP plugin (createFetchPlugin) *)
(* ====================================================================== *)

Module Fetch.
Import Js.

(** How an evaluation (or, for an async function, its promise) ends:
    with a value, or with a thrown value / rejection reason. *)
Inductive Completion (A : Type) :=
| Normal (a : A)
| Throw (v : Js.Value).
Arguments Normal {A} a.
Arguments Throw {A} v.

(** *** Headers *)

(** A header list: names keep the case they were given in and are
    compared case-insensitively. *)
Definition Headers := list (string * string).

Definition same_name (a b : string) : bool :=
  String.eqb (toLowerCase a) (toLowerCase b).

(** A header name is a token: one or more of the characters below. *)
Definition is_tchar (c : ascii) : bool :=
  let n := nat_of_ascii c in
  ((48 <=? n)%nat && (n <=? 57)%nat)
  || ((65 <=? n)%nat && (n <=? 90)%nat)
  || ((97 <=? n)%nat && (n <=? 122)%nat)
  || existsb (Ascii.eqb c) (list_ascii_of_string "!#$%&'*+-.^_`|~").

Definition is_header_name (name : string) : bool :=
  negb (String.eqb name "") && forallb is_tchar (list_ascii_of_string name).

(** HTTP whitespace: tab, line feed, carriage return, space. *)
Definition is_http_whitespace (c : ascii) : bool :=
  let n := nat_of_ascii c in
  (n =? 9)%nat || (n =? 10)%nat || (n =? 13)%nat || (n =? 32)%nat.

Fixpoint strip_leading (s : string) : string :=
  match s with
  | EmptyString => EmptyString
  | String c r => if is_http_whitespace c then strip_leading r else s
  end.

Fixpoint strip_trailing (s : string) : string :=
  match s with
  | EmptyString => EmptyString
  | String c r =>
      match strip_trailing r with
      | EmptyString =>
          if is_http_whitespace c then EmptyString else String c EmptyString
      | r' => String c r'
      end
  end.

(** Normalizing a value removes its leading and trailing HTTP whitespace. *)
Definition normalize (value : string) : string :=
  strip_trailing (strip_leading value).

(** A normalized value is a header value when it holds no NUL, line feed
    or carriage return. *)
Definition is_header_value (value : string) : bool :=
  forallb (fun c => let n := nat_of_ascii c in
                    negb ((n =? 0)%nat || (n =? 10)%nat || (n =? 13)%nat))
          (list_ascii_of_string value).

(** What [append] and [set] accept. *)
Definition valid_header (kv : string * string) : bool :=
  is_header_name (fst kv) && is_header_value (normalize (snd kv)).

(** Appending to a header list: a name the list already has is written in
    the case of its first occurrence. *)
Definition header_list_append (name value : string) (h : Headers) : Headers :=
  h ++ [(match List.find (fun e => same_name (fst e) name) h with
         | Some e => fst e
         | None => name
         end, value)].

(** Setting in a header list: overwrite the first header of that name and
    drop the others, or append when there is none. *)
Fixpoint header_list_set (name value : string) (h : Headers) : Headers :=
  match h with
  | [] => [(name, value)]
  | (n, v) :: rest =>
      if same_name n name
      then (n, value) :: List.filter (fun e => negb (same_name (fst e) name)) rest
      else (n, v) :: header_list_set name value rest
  end.

(** [headers.append(name, value)], the step [new Headers(init)] takes for
    each entry: the value is normalized, then a [TypeError] is thrown
    unless the name is a header name and the value a header value.  (The
    messages are written as Chromium words them; nothing below depends on
    their text.) *)
Definition Headers_append (name value : string) (h : Headers)
  : Completion Headers :=
  if negb (is_header_name name)
  then Throw (TypeError "Failed to construct 'Headers': Invalid name")
  else if negb (is_header_value (normalize value))
  then Throw (TypeError "Failed to construct 'Headers': Invalid value")
  else Normal (header_list_append name (normalize value) h).

(** [headers.set(name, value)], with the same checks. *)
Definition Headers_set (name value : string) (h : Headers)
  : Completion Headers :=
  if negb (is_header_name name)
  then Throw (TypeError "Failed to execute 'set' on 'Headers': Invalid name")
  else if negb (is_header_value (normalize value))
  then Throw (TypeError "Failed to execute 'set' on 'Headers': Invalid value")
  else Normal (header_list_set name (normalize value) h).

(** [new Headers(init)]: [undefined] gives the empty list; otherwise the
    entries [init] lists are appended one after the other, and the first
    one that is refused ends the construction with its [TypeError]. *)
Definition new_Headers (init : option (list (string * string)))
  : Completion Headers :=
  fold_left (fun acc kv =>
               match acc with
               | Normal h => Headers_append (fst kv) (snd kv) h
               | Throw e => Throw e
               end)
            (default [] init) (Normal []).

(** The values stored under [name], in order ([headers.get] joins them
    with a comma; [null] when there is none). *)
Definition Headers_values (name : string) (h : Headers) : list string :=
  map snd (List.filter (fun e => same_name (fst e) name) h).

Fixpoint join (l : list string) : string :=
  match l with
  | [] => ""
  | [v] => v
  | v :: rest => v +:+ ", " +:+ join rest
  end.

Definition Headers_get (name : string) (h : Headers) : option string :=
  match Headers_values name h with
  | [] => None
  | l => Some (join l)
  end.

(** The value a list of entries gives to header [name] when its entries
    are [set] one after the other: that of the last entry of that name. *)
Definition last_value (name : string) (entries : list (string * string))
  : option string :=
  last (Headers_values name entries).

(** *** Requests and responses *)

Record Request := {
  url : string;
  request_method : string;
  request_headers : Headers
}.

(** [RequestInfo | URL] *)
Inductive RequestInfo :=
| InputString (s : string)
| InputURL (href : string)
| InputRequest (r : Request).

(** [headers] holds the name/value pairs the member lists, whether it is
    an array of pairs, a record or a [Headers] object. *)
Record RequestInit := {
  method : option string;
  headers : option (list (string * string));
  body : option string
}.

(** Where the request that [fetch(input, init)] makes takes its headers
    from ([new Request(input, init)] in the Fetch standard): from the
    [headers] member of [init] when it has one, which then replaces the
    headers of a [Request] input; without that member from the [Request]
    input, and from nowhere for a string or a URL. *)
Inductive HeaderSource :=
| FromInit (entries : list (string * string))
| FromRequest (h : Headers)
| NoHeaders.

Definition request_headers_from (input : RequestInfo)
           (init : option RequestInit) : HeaderSource :=
  match init ≫= headers with
  | Some entries => FromInit entries
  | None =>
      match input with
      | InputRequest r => FromRequest (request_headers r)
      | _ => NoHeaders
      end
  end.

Record Response := { status : Z; response_headers : Headers }.

(** [response.ok]: the Fetch standard defines it as "the status is in the
    range 200 to 299, inclusive". *)
Definition ok (r : Response) : bool :=
  (200 <=? status r)%Z && (status r <=? 299)%Z.

(** [Number(x) || 0] for a header value: a string of decimal digits (the
    grammar of Content-Length) is its number; [null] and the empty string
    give 0; any other string is read as [NaN] here, hence 0 (signs,
    exponents, fractions, hexadecimal literals and surrounding blanks are
    not modelled).  The number is kept as an integer: it is the double the
    runtime holds as long as it is below 2^53. *)
Definition digit (c : ascii) : option Z :=
  let n := nat_of_ascii c in
  if (48 <=? n)%nat && (n <=? 57)%nat then Some (Z.of_nat (n - 48)) else None.

Fixpoint digits (acc : Z) (s : string) : option Z :=
  match s with
  | EmptyString => Some acc
  | String c r =>
      match digit c with
      | Some d => digits (10 * acc + d) r
      | None => None
      end
  end.

Definition Number_or_0 (x : option string) : Z :=
  match x with
  | None => 0
  | Some s => default 0%Z (digits 0 s)
  end.

(** The real [fetch], seen as the way its promise settles for given
    arguments. *)
Definition FetchFn := RequestInfo -> option RequestInit -> Completion Response.

(** What one call of the patched [fetch] did besides tracing: the
    arguments it handed to the real [fetch] (if it got that far) and how
    the promise it returned settles. *)
Record FetchRun := {
  passed : option (RequestInfo * option RequestInit);
  settled : Completion Response
}.

(** *** XMLHttpRequest *)

(** The closures the patched [send] registers; each captures its span. *)
Inductive Listener :=
| LoadendListener (span : Span)
| ErrorListener (span : Span).

Record XMLHttpRequest := {
  __otel_method : option string;
  __otel_url : option string;
  xhr_status : Z;
  (** [setRequestHeader] calls so far, oldest first *)
  requestHeaders : list (string * string);
  (** [addEventListener] registrations so far, oldest first *)
  listeners : list (string * Listener)
}.

Definition setRequestHeader (k v : string) (x : XMLHttpRequest) :=
  {| __otel_method := __otel_method x; __otel_url := __otel_url x;
     xhr_status := xhr_status x;
     requestHeaders := requestHeaders x ++ [(k, v)];
     listeners := listeners x |}.

Definition addEventListener (ty : string) (l : Listener) (x : XMLHttpRequest) :=
  {| __otel_method := __otel_method x; __otel_url := __otel_url x;
     xhr_status := xhr_status x;
     requestHeaders := requestHeaders x;
     listeners := listeners x ++ [(ty, l)] |}.

(** How a method call on a request object ends: the object after the
    call, and the exception thrown, if any. *)
Definition Outcome : Type := XMLHttpRequest * option Js.Value.

(** The real [open] and [send]. *)
Definition OpenFn := XMLHttpRequest -> string -> string -> Outcome.
Definition SendFn := XMLHttpRequest -> option string -> Outcome.

(** *** Configuration *)

Record FetchPluginConfig := {
  cfg_ignoreUrls : option (list RegExp);
  cfg_propagateToUrls : option (list RegExp)
}.

Definition matchesAny (url : string) (patterns : list RegExp) : bool :=
  existsb (fun p => test p url) patterns.

Section Plugin.

Variable config : FetchPluginConfig.

(** [new URL(x, location.origin).href]; the constructor throws on a
    string it cannot parse. *)
Variable URL_href : string -> Completion string.

(** The entries [propagation.inject(context.active(), carrier)] leaves
    in [carrier], as [Object.entries] lists them. *)
Variable carrier : list (string * string).

Definition ignoreUrls : list RegExp := default [] (cfg_ignoreUrls config).
Definition propagateToUrls : list RegExp :=
  default [] (cfg_propagateToUrls config).

Definition resolveUrl (input : RequestInfo) : Completion string :=
  match input with
  | InputString s => URL_href s
  | InputURL href => Normal href
  | InputRequest r => URL_href (url r)
  end.

Definition resolveMethod (input : RequestInfo) (init : option RequestInit)
  : string :=
  if truthy (init ≫= method)
  then toUpperCase (default "" (init ≫= method))
  else match input with
       | InputRequest r => toUpperCase (request_method r)
       | _ => "GET"
       end.

(** The loop stops at the first [headers.set] that throws. *)
Definition injectTraceHeaders (h : Headers) : Completion Headers :=
  fold_left (fun acc kv =>
               match acc with
               | Normal h => Headers_set (fst kv) (snd kv) h
               | Throw e => Throw e
               end)
            carrier (Normal h).

(** [const headers = new Headers(init?.headers)], then the conditional
    [injectTraceHeaders(headers)]. *)
Definition outgoing_headers (url : string) (init : option RequestInit)
  : Completion Headers :=
  match new_Headers (init ≫= headers) with
  | Throw e => Throw e
  | Normal headers =>
      if matchesAny url propagateToUrls
      then injectTraceHeaders headers else Normal headers
  end.

(** [{ ...init, headers }] *)
Definition with_headers (init : option RequestInit) (h : Headers)
  : RequestInit :=
  {| method := init ≫= method; headers := Some h; body := init ≫= body |}.

(** The function [patchFetch] installs as [globalThis.fetch].  The
    headers are built after the span was started and before the [try]
    block: an exception of [new Headers] or [headers.set] rejects the
    promise right there. *)
Definition patchedFetch (originalFetch : FetchFn)
           (input : RequestInfo) (init : option RequestInit) : M FetchRun :=
  match resolveUrl input with
  | Throw e => mret {| passed := None; settled := Throw e |}
  | Normal url =>
    if matchesAny url ignoreUrls then
      mret {| passed := Some (input, init);
              settled := originalFetch input init |}
    else
      let method := resolveMethod input init in
      span ← startSpan ("HTTP " +:+ method) None
               [("http.method", AStr method); ("http.url", AStr url)];
      match outgoing_headers url init with
      | Throw e => mret {| passed := None; settled := Throw e |}
      | Normal headers =>
      let init' := Some (with_headers init headers) in
      match originalFetch input init' with
      | Normal response =>
          setAttributes span
            [("http.status_code", AInt (status response));
             ("http.response.content_length",
              AInt (Number_or_0
                      (Headers_get "content-length"
                         (response_headers response))))];;
          (if ok response
           then setStatus span OK None
           else setStatus span ERROR
                  (Some ("HTTP " +:+ pretty (status response))));;
          endSpan span None;;
          mret {| passed := Some (input, init'); settled := Normal response |}
      | Throw error =>
          setStatus span ERROR
            (Some (match error with
                   | ErrorObj message => message
                   | NonError _ => "Fetch failed"
                   end));;
          when (instanceofError error) (recordException span error);;
          endSpan span None;;
          mret {| passed := Some (input, init'); settled := Throw error |}
      end
      end
  end.


(** The function [patchXhr] installs as [XMLHttpRequest.prototype.send]. *)
Definition patchedSend (originalXhrSend : SendFn)
           (this : XMLHttpRequest) (body : option string) : M Outcome :=
  let url := __otel_url this in
  let method := __otel_method this in
  if negb (truthy url) || negb (truthy method)
     || matchesAny (default "" url) ignoreUrls then
    mret (originalXhrSend this body)
  else
    let url := default "" url in
    let method := default "" method in
    span ← startSpan ("HTTP " +:+ method) None
             [("http.method", AStr method); ("http.url", AStr url)];
    let this :=
      if matchesAny url propagateToUrls
      then fold_left (fun x kv => setRequestHeader (fst kv) (snd kv) x)
                     carrier this
      else this in
    let this := addEventListener "loadend" (LoadendListener span) this in
    let this := addEventListener "error" (ErrorListener span) this in
    mret (originalXhrSend this body).

(** The body of a registered listener, run on the request object. *)
Definition handle (l : Listener) (this : XMLHttpRequest) : M unit :=
  match l with
  | LoadendListener span =>
      setAttribute span "http.status_code" (AInt (xhr_status this));;
      (if (200 <=? xhr_status this)%Z && (xhr_status this <? 400)%Z
       then setStatus span OK None
       else setStatus span ERROR
              (Some ("HTTP " +:+ pretty (xhr_status this))));;
      endSpan span None
  | ErrorListener span =>
      setStatus span ERROR (Some "XHR request failed");;
      endSpan span None
  end.

End Plugin.

(** The browser fires event [ty] on the request object: the listeners
    registered for it run in registration order. *)
Fixpoint dispatch_to (ls : list (string * Listener)) (ty : string)
         (this : XMLHttpRequest) : M unit :=
  match ls with
  | [] => mret tt
  | (ty', l) :: rest =>
      when (String.eqb ty' ty) (handle l this);;
      dispatch_to rest ty this
  end.

Definition dispatchEvent (ty : string) (this : XMLHttpRequest) : M unit :=
  dispatch_to (listeners this) ty this.


(** *** Patching and restoring the globals *)

(** A function value held by a global: one that was there before, or the
    wrapper this plugin installs. *)
Inductive FetchValue := NativeFetch (impl : FetchFn) | PatchedFetch.
Inductive OpenValue := NativeOpen (impl : OpenFn) | PatchedOpen.
Inductive SendValue := NativeSend (impl : SendFn) | PatchedSend.

(** [globalThis.fetch], [XMLHttpRequest.prototype.open] and [.send]; their
    declared types make them functions, never [undefined]. *)
Record Globals := {
  fetch : FetchValue;
  XHR_open : OpenValue;
  XHR_send : SendValue
}.

(** The closure variables of [createFetchPlugin]. *)
Record State := {
  originalFetch : option FetchValue;
  originalXhrOpen : option OpenValue;
  originalXhrSend : option SendValue
}.

Definition init : State :=
  {| originalFetch := None; originalXhrOpen := None; originalXhrSend := None |}.

Definition patchFetch (w : State * Globals) : State * Globals :=
  let '(st, g) := w in
  ({| originalFetch := Some (fetch g);
      originalXhrOpen := originalXhrOpen st;
      originalXhrSend := originalXhrSend st |},
   {| fetch := PatchedFetch; XHR_open := XHR_open g; XHR_send := XHR_send g |}).

Definition patchXhr (w : State * Globals) : State * Globals :=
  let '(st, g) := w in
  ({| originalFetch := originalFetch st;
      originalXhrOpen := Some (XHR_open g);
      originalXhrSend := Some (XHR_send g) |},
   {| fetch := fetch g; XHR_open := PatchedOpen; XHR_send := PatchedSend |}).

Definition setup (w : State * Globals) : State * Globals :=
  patchXhr (patchFetch w).

Definition restoreFetch (w : State * Globals) : State * Globals :=
  let '(st, g) := w in
  match originalFetch st with
  | Some f =>
      ({| originalFetch := None;
          originalXhrOpen := originalXhrOpen st;
          originalXhrSend := originalXhrSend st |},
       {| fetch := f; XHR_open := XHR_open g; XHR_send := XHR_send g |})
  | None => w
  end.

Definition restoreXhrOpen (w : State * Globals) : State * Globals :=
  let '(st, g) := w in
  match originalXhrOpen st with
  | Some f =>
      ({| originalFetch := originalFetch st;
          originalXhrOpen := None;
          originalXhrSend := originalXhrSend st |},
       {| fetch := fetch g; XHR_open := f; XHR_send := XHR_send g |})
  | None => w
  end.

Definition restoreXhrSend (w : State * Globals) : State * Globals :=
  let '(st, g) := w in
  match originalXhrSend st with
  | Some f =>
      ({| originalFetch := originalFetch st;
          originalXhrOpen := originalXhrOpen st;
          originalXhrSend := None |},
       {| fetch := fetch g; XHR_open := XHR_open g; XHR_send := f |})
  | None => w
  end.

(** The three [if (original...) { ... }] blocks of [teardown], in order. *)
Definition teardown (w : State * Globals) : State * Globals :=
  restoreXhrSend (restoreXhrOpen (restoreFetch w)).

(** Calling whatever [globalThis.fetch] holds.  The wrapper reads the
    [originalFetch] variable when it runs; the call is described while that
    variable holds a function that was there before the plugin. *)
Definition call_fetch (config : FetchPluginConfig)
           (URL_href : string -> Completion string)
           (carrier : list (string * string)) (w : State * Globals)
           (input : RequestInfo) (init : option RequestInit)
  : option (M FetchRun) :=
  match fetch w.2 with
  | NativeFetch impl =>
      Some (mret {| passed := Some (input, init); settled := impl input init |})
  | PatchedFetch =>
      match originalFetch w.1 with
      | Some (NativeFetch impl) =>
          Some (patchedFetch config URL_href carrier impl input init)
      | _ => None
      end
  end.

End Fetch.

(* ====================================================================== *)
(** ** Page-load plugin (src/plugins/document-load.ts) *)
(* ====================================================================== *)

Module DocumentLoad.

(** The fields of a navigation-timing entry the plugin reads; numbers are
    IEEE doubles, as in JavaScript. *)
Record PerformanceNavigationTiming := {
  startTime : float;
  type : string;
  redirectCount : float;
  domainLookupStart : float;
  domainLookupEnd : float;
  connectStart : float;
  connectEnd : float;
  secureConnectionStart : float;
  requestStart : float;
  responseStart : float;
  responseEnd : float;
  domInteractive : float;
  domContentLoadedEventEnd : float;
  loadEventEnd : float;
  transferSize : float;
  decodedBodySize : float
}.

(** A paint or largest-contentful-paint entry. *)
Record PerformanceEntry := {
  name : string;
  entry_startTime : float;
  element_tagName : option string;
  size : option float
}.

(** What the plugin reads from the page at a given moment. *)
Record Browser := {
  readyState : string;
  location_href : string;
  navigation_entries : list PerformanceNavigationTiming;
  paint_entries : list PerformanceEntry;
  (** whether the [PerformanceObserver] constructor exists *)
  PerformanceObserver_defined : bool;
  (** whether [observe({ type, buffered: true })] accepts the entry type *)
  observable : string -> bool
}.

(** A listener on [window]: the only one the plugin registers calls
    [emitNavigationSpan]. *)
Record WindowListener := { event : string; once : bool }.

(** A [PerformanceObserver] the plugin built: the [navigationStart] its
    callback captured, and whether its [observe] call went through. *)
Record Observer := { navigationStart : float; observing : bool }.

(** What [setup] leaves registered, for a plugin instance that is set up
    once: a second [setup] would overwrite the [observer] variable while
    the observer it held stays connected in the browser, and that observer
    has no place here. *)
Record State := {
  window_listeners : list WindowListener;
  (** the one-shot paint observer, while it observes *)
  paintObserver : option Observer;
  (** the [observer] variable (largest contentful paint) *)
  observer : option Observer
}.

Definition init : State :=
  {| window_listeners := []; paintObserver := None; observer := None |}.

Definition emitNavigationSpan (b : Browser) : M unit :=
  match navigation_entries b with
  | [] => mret tt
  | navigation :: _ =>
      span ← startSpan "document.load" (Some (startTime navigation))
        [("document.url", AStr (location_href b));
         ("document.type", AStr (type navigation));
         ("document.redirect_count", ANum (redirectCount navigation));
         ("timing.dns_ms",
          ANum (PrimFloat.sub (domainLookupEnd navigation)
                              (domainLookupStart navigation)));
         ("timing.connect_ms",
          ANum (PrimFloat.sub (connectEnd navigation)
                              (connectStart navigation)));
         ("timing.tls_ms",
          ANum (if PrimFloat.ltb 0%float (secureConnectionStart navigation)
                then PrimFloat.sub (connectEnd navigation)
                                   (secureConnectionStart navigation)
                else 0%float));
         ("timing.ttfb_ms",
          ANum (PrimFloat.sub (responseStart navigation)
                              (requestStart navigation)));
         ("timing.response_ms",
          ANum (PrimFloat.sub (responseEnd navigation)
                              (responseStart navigation)));
         ("timing.dom_interactive_ms", ANum (domInteractive navigation));
         ("timing.dom_content_loaded_ms",
          ANum (domContentLoadedEventEnd navigation));
         ("timing.load_ms", ANum (loadEventEnd navigation));
         ("transfer.size", ANum (transferSize navigation));
         ("transfer.decoded_size", ANum (decodedBodySize navigation))];
      endSpan span (Some (loadEventEnd navigation))
  end.

Fixpoint emitPaintSpans (href : string) (entries : list PerformanceEntry)
         (navigationStart : float) : M unit :=
  match entries with
  | [] => mret tt
  | entry :: rest =>
      (if negb (String.eqb (name entry) "first-paint")
          && negb (String.eqb (name entry) "first-contentful-paint")
       then mret tt
       else
         span ← startSpan (name entry) (Some navigationStart)
                  [("document.url", AStr href);
                   ("paint.duration_ms", ANum (entry_startTime entry))];
         endSpan span (Some (entry_startTime entry)));;
      emitPaintSpans href rest navigationStart
  end.

Definition emitLcpSpan (href : string) (entries : list PerformanceEntry)
           (navigationStart : float) : M unit :=
  match last entries with
  | None => mret tt
  | Some lcp =>
      span ← startSpan "largest-contentful-paint" (Some navigationStart)
               [("document.url", AStr href);
                ("lcp.duration_ms", ANum (entry_startTime lcp));
                ("lcp.element", AStr (default "" (element_tagName lcp)));
                ("lcp.size", ANum (default 0%float (size lcp)))];
      endSpan span (Some (entry_startTime lcp))
  end.

Definition setup (b : Browser) (st : State) : M State :=
  (if String.eqb (readyState b) "complete"
   then emitNavigationSpan b
   else mret tt);;
  let window_listeners :=
    if String.eqb (readyState b) "complete"
    then window_listeners st
    else window_listeners st ++ [{| event := "load"; once := true |}] in
  let navigationStart :=
    match navigation_entries b with
    | navigation :: _ => startTime navigation
    | [] => 0%float
    end in
  let existingPaintEntries := paint_entries b in
  (if (0 <? length existingPaintEntries)%nat
   then emitPaintSpans (location_href b) existingPaintEntries navigationStart
   else mret tt);;
  mret {| window_listeners := window_listeners;
          paintObserver :=
            if (0 <? length existingPaintEntries)%nat then paintObserver st
            else if PerformanceObserver_defined b && observable b "paint"
                 then Some {| navigationStart := navigationStart;
                              observing := true |}
                 else paintObserver st;
          observer :=
            if PerformanceObserver_defined b
            then Some {| navigationStart := navigationStart;
                         observing := observable b "largest-contentful-paint" |}
            else observer st |}.

(** The callback of the paint observer: emit, then disconnect. *)
Definition paintObserved (href : string) (entries : list PerformanceEntry)
           (st : State) : M State :=
  match paintObserver st with
  | Some o =>
      emitPaintSpans href entries (navigationStart o);;
      mret {| window_listeners := window_listeners st;
              paintObserver := None;
              observer := observer st |}
  | None => mret st
  end.

(** The callback of the largest-contentful-paint observer. *)
Definition lcpObserved (href : string) (entries : list PerformanceEntry)
           (st : State) : M unit :=
  match observer st with
  | Some o =>
      when (observing o) (emitLcpSpan href entries (navigationStart o))
  | None => mret tt
  end.

(** The browser fires [ty] on [window], the page being [b] by then: every
    listener registered for [ty] runs, and the once-only ones are gone
    afterwards. *)
Fixpoint run_listeners (ls : list WindowListener) (ty : string) (b : Browser)
  : M unit :=
  match ls with
  | [] => mret tt
  | l :: rest =>
      when (String.eqb (event l) ty) (emitNavigationSpan b);;
      run_listeners rest ty b
  end.

Definition fire (ty : string) (b : Browser) (st : State) : M State :=
  run_listeners (window_listeners st) ty b;;
  mret {| window_listeners :=
            List.filter
              (fun l => negb (String.eqb (event l) ty && once l))
              (window_listeners st);
          paintObserver := paintObserver st;
          observer := observer st |}.

Definition teardown (st : State) : State :=
  {| window_listeners := window_listeners st;
     paintObserver := paintObserver st;
     observer := None |}.

(** The entries [emitPaintSpans] does not skip. *)
Definition is_paint_entry (entry : PerformanceEntry) : bool :=
  String.eqb (name entry) "first-paint"
  || String.eqb (name entry) "first-contentful-paint".

(** The spans of navigation timing are the ones named "document.load". *)
Definition is_navigation_span (c : Call) : bool :=
  match c with
  | StartSpan _ n _ _ => String.eqb n "document.load"
  | _ => false
  end.

End DocumentLoad.

(* ====================================================================== *)
(** * Theorems *)
(* ====================================================================== *)

(** Unfolds the tracer monad down to the log it builds. *)
Ltac run_tracer :=
  cbv beta iota zeta delta
    [mbind mret M_bind M_ret call startSpan setAttribute setAttributes
     setStatus recordException endSpan when emitted];
  cbn [fst snd calls fresh].

Lemma bind_run {A B} (m : M A) (k : A -> M B) (t : Tracer) :
  (m ≫= k) t = k (m t).1 (m t).2.
Proof. unfold mbind, M_bind. by destruct (m t). Qed.

Lemma emitted_app {A} (m : M A) (t : Tracer) (cs : list Call) :
  calls (snd (m t)) = calls t ++ cs -> emitted m t = cs.
Proof.
  intros E. unfold emitted. rewrite E. by rewrite drop_app_length.
Qed.

(** C7. A "navigation beginning" event that arrives while the span of a
    previous navigation is still open makes exactly two calls, in this
    order: it ends the previous span (no status is set on it), then starts
    a span named [navigate <destination path>] whose attributes carry the
    origin path, the destination path and the path-changed flag; the new
    span becomes the active one. *)
Theorem C7_navigation_supersedes (old : Span) (u1 u2 : option nat)
    (event : Router.NavigationEvent) (t : Tracer) :
  let st := {| Router.unsubBeforeNavigate := u1; Router.unsubResolved := u2;
               Router.activeSpan := Some old |} in
  let dest := Router.pathname (Router.toLocation event) in
  let m := Router.beforeNavigateListener event st in
  emitted m t =
    [ EndSpan old None;
      StartSpan (fresh t) ("navigate " +:+ dest) None
        [("router.from",
          AStr (match Router.fromLocation event with
                | Some l => Router.pathname l
                | None => ""
                end));
         ("router.to", AStr dest);
         ("router.path_changed", ABool (Router.pathChanged event))] ]
  /\ Router.activeSpan (fst (m t)) = Some (fresh t)
  /\ Forall (fun c => is_setStatus c = false) (emitted m t).
Proof.
  intros st dest m.
  assert (E : emitted m t = [ EndSpan old None;
      StartSpan (fresh t) ("navigate " +:+ dest) None
        [("router.from", AStr (from_option Router.pathname ""
                                 (Router.fromLocation event)));
         ("router.to", AStr dest);
         ("router.path_changed", ABool (Router.pathChanged event))] ]).
  { apply emitted_app. unfold m, Router.beforeNavigateListener. cbn [Router.activeSpan st].
    run_tracer. by rewrite <- app_assoc. }
  rewrite E. split; [|split].
  - by destruct (Router.fromLocation event).
  - reflexivity.
  - repeat constructor.
Qed.

(** ** Data-fetch cache plugin *)

Example query_fetch_success :
  let e ty := Query.QueryEvent
    {| Query.q_type := "updated";
       Query.query := {| Query.queryKey := {| Query.JSON_stringify := "[1]" |};
                         Query.queryHash := "q1" |};
       Query.q_action := Some {| Query.action_type := ty; Query.error := None |} |} in
  let r := Query.run [e "fetch"; e "fetch"; e "success"] Query.init new_tracer in
  calls (snd r) =
    [ StartSpan 0 "query [1]" None
        [("query.hash", AStr "q1"); ("query.key", AStr "[1]")];
      SetStatus 0 {| code := OK; message := None |};
      EndSpan 0 None ]
  /\ Query.querySpans (fst r) = ∅.
Proof. split; vm_compute; reflexivity. Qed.

Section QueryInvariant.
Import Query.

Lemma started_app log cs k : started (log ++ cs) k = started log k ++ started cs k.
Proof. apply omap_app. Qed.

Lemma ended_app log cs s : ended (log ++ cs) s = ended log s || ended cs s.
Proof. apply existsb_app. Qed.

Lemma started_target log k s :
  s ∈ started log k -> exists c, c ∈ log /\ target c = s /\ key_of c = Some k.
Proof.
  unfold started. rewrite list_elem_of_omap. intros (c & Hc & E).
  exists c. destruct (decide (key_of c = Some k)); naive_solver.
Qed.

Lemma ended_target log s :
  ended log s = true -> exists c, c ∈ log /\ target c = s.
Proof.
  unfold ended. rewrite existsb_exists. intros (c & Hc & E).
  exists c. split; [by apply list_elem_of_In|].
  destruct c; try discriminate. cbn in *. by apply Nat.eqb_eq in E.
Qed.

Lemma filter_andb {A} (f g : A -> bool) (l : list A) :
  List.filter (fun x => f x && g x) l = List.filter g (List.filter f l).
Proof.
  induction l as [|x l IH]; [done|]. cbn.
  destruct (f x); cbn; [destruct (g x)|]; by rewrite IH.
Qed.

(** Calls that start no keyed span only close spans. *)
Lemma open_spans_app_other log cs k :
  Forall (fun c => key_of c = None) cs ->
  open_spans (log ++ cs) k
  = List.filter (fun s => negb (ended cs s)) (open_spans log k).
Proof.
  intros H. unfold open_spans. rewrite started_app.
  assert (started cs k = []) as ->.
  { unfold started. induction H as [|c cs Hc _ IH]; [done|].
    cbn. rewrite Hc. by destruct (decide _). }
  rewrite app_nil_r, <- filter_andb. apply filter_ext.
  intros s. by rewrite ended_app, negb_orb.
Qed.

(** Starting a span on a handle the log has not ended. *)
Lemma open_spans_app_start log f name a k :
  ended log f = false ->
  open_spans (log ++ [StartSpan f name None a]) k
  = open_spans log k ++
      (if decide (key_of (StartSpan f name None a) = Some k) then [f] else []).
Proof.
  intros Hf. unfold open_spans. rewrite started_app, List.filter_app.
  f_equal.
  - apply filter_ext. intros s. by rewrite ended_app, orb_false_r.
  - cbn [started omap list_omap]. destruct (decide _); [|done].
    cbn. by rewrite ended_app, Hf.
Qed.

Lemma pending_insert_query st h f k' :
  pending (set_querySpans (<[h:=f]> (querySpans st)) st) k'
  = if decide (k' = QKey h) then Some f else pending st k'.
Proof.
  destruct k' as [h'|i]; cbn; [|by destruct (decide _)].
  rewrite lookup_insert. repeat case_decide; congruence.
Qed.

Lemma pending_delete_query st h k' :
  pending (set_querySpans (delete h (querySpans st)) st) k'
  = if decide (k' = QKey h) then None else pending st k'.
Proof.
  destruct k' as [h'|i]; cbn; [|by destruct (decide _)].
  rewrite lookup_delete. repeat case_decide; congruence.
Qed.

Lemma pending_insert_mutation st i f k' :
  pending (set_mutationSpans (<[i:=f]> (mutationSpans st)) st) k'
  = if decide (k' = MKey i) then Some f else pending st k'.
Proof.
  destruct k' as [h'|i']; cbn; [by destruct (decide _)|].
  rewrite lookup_insert. repeat case_decide; congruence.
Qed.

Lemma pending_delete_mutation st i k' :
  pending (set_mutationSpans (delete i (mutationSpans st)) st) k'
  = if decide (k' = MKey i) then None else pending st k'.
Proof.
  destruct k' as [h'|i']; cbn; [by destruct (decide _)|].
  rewrite lookup_delete. repeat case_decide; congruence.
Qed.

Lemma ended_in log s e : In (EndSpan s e) log -> ended log s = true.
Proof.
  intros H. apply existsb_exists. exists (EndSpan s e).
  split; [done|]. cbn. apply Nat.eqb_refl.
Qed.

Lemma close_calls_ok s status e :
  let cs := emitted (setStatus s ERROR status;; record_if_error s e;;
                     endSpan s None) new_tracer in
  Forall (fun c => key_of c = None /\ target c = s) cs /\ ended cs s = true.
Proof.
  destruct e as [[msg|tag]|]; unfold record_if_error; run_tracer; cbn;
    (split; [repeat constructor | by rewrite Nat.eqb_refl]).
Qed.

Lemma queryListener_step event st t :
  Step st t (queryListener event st t).1 (queryListener event st t).2.
Proof.
  unfold queryListener.
  destruct (q_action event) as [action|]; [|apply step_skip].
  destruct (negb (String.eqb (q_type event) "updated")); [apply step_skip|].
  cbv zeta.
  set (h := queryHash (query event)).
  destruct (String.eqb (action_type action) "fetch"
            && negb (bool_decide (is_Some (querySpans st !! h)))) eqn:Efetch.
  - apply andb_prop in Efetch as [_ Hnone].
    apply negb_true_iff, bool_decide_eq_false in Hnone.
    rewrite <- eq_None_not_Some in Hnone.
    eapply step_open with (k := QKey h);
      [ done | | run_tracer; reflexivity | reflexivity
      | intros k'; apply pending_insert_query ]; reflexivity.
  - destruct (String.eqb (action_type action) "success").
    { destruct (querySpans st !! h) as [s|] eqn:Es; [|apply step_skip].
      eapply (step_close _ _ (QKey h) s
                [SetStatus s {| code := OK; message := None |}; EndSpan s None]);
        run_tracer; try done.
      + by rewrite <- app_assoc.
      + repeat constructor.
      + apply (ended_in _ _ None); cbn; auto.
      + intros k'. apply pending_delete_query. }
    destruct (String.eqb (action_type action) "error"); [|apply step_skip].
    destruct (querySpans st !! h) as [s|] eqn:Es; [|apply step_skip].
    pose proof (close_calls_ok s (Some (error_message (error action)))
                  (error action)) as [Hcs Hend].
    eapply (step_close _ _ (QKey h) s); [done| | |exact Hcs|exact Hend|].
    + destruct (error action) as [[msg|tag]|]; run_tracer; cbn;
        by rewrite <- ?app_assoc.
    + by destruct (error action) as [[msg|tag]|].
    + intros k'.
      destruct (error action) as [[msg|tag]|]; apply pending_delete_query.
Qed.

Lemma mutationListener_step event st t :
  Step st t (mutationListener event st t).1 (mutationListener event st t).2.
Proof.
  unfold mutationListener.
  destruct (m_action event) as [action|]; [|apply step_skip].
  destruct (mutation event) as [mu|]; [|apply step_skip].
  destruct (negb (String.eqb (m_type event) "updated")); [apply step_skip|].
  cbv zeta.
  set (i := mutationId mu).
  destruct (String.eqb (action_type action) "pending"
            && negb (bool_decide (is_Some (mutationSpans st !! i)))) eqn:Epend.
  - apply andb_prop in Epend as [_ Hnone].
    apply negb_true_iff, bool_decide_eq_false in Hnone.
    rewrite <- eq_None_not_Some in Hnone.
    eapply step_open with (k := MKey i);
      [ done | | run_tracer; reflexivity | reflexivity
      | intros k'; apply pending_insert_mutation ]; reflexivity.
  - destruct (String.eqb (action_type action) "success").
    { destruct (mutationSpans st !! i) as [s|] eqn:Es; [|apply step_skip].
      eapply (step_close _ _ (MKey i) s
                [SetStatus s {| code := OK; message := None |}; EndSpan s None]);
        run_tracer; try done.
      + by rewrite <- app_assoc.
      + repeat constructor.
      + apply (ended_in _ _ None); cbn; auto.
      + intros k'. apply pending_delete_mutation. }
    destruct (String.eqb (action_type action) "error"); [|apply step_skip].
    destruct (mutationSpans st !! i) as [s|] eqn:Es; [|apply step_skip].
    pose proof (close_calls_ok s (Some (error_message (error action)))
                  (error action)) as [Hcs Hend].
    eapply (step_close _ _ (MKey i) s); [done| | |exact Hcs|exact Hend|].
    + destruct (error action) as [[msg|tag]|]; run_tracer; cbn;
        by rewrite <- ?app_assoc.
    + by destruct (error action) as [[msg|tag]|].
    + intros k'.
      destruct (error action) as [[msg|tag]|]; apply pending_delete_mutation.
Qed.

Lemma deliver_step ev st t :
  Step st t (deliver ev st t).1 (deliver ev st t).2.
Proof.
  destruct ev; [apply queryListener_step | apply mutationListener_step].
Qed.

Lemma fresh_not_ended st t : Inv st t -> ended (calls t) (fresh t) = false.
Proof.
  intros I. apply not_true_is_false. intros (c & Hc & E)%ended_target.
  pose proof (inv_fresh _ _ I) as F. rewrite Forall_forall in F.
  specialize (F c Hc). lia.
Qed.

Lemma fresh_not_started st t k : Inv st t -> fresh t ∉ started (calls t) k.
Proof.
  intros I (c & Hc & E & _)%started_target.
  pose proof (inv_fresh _ _ I) as F. rewrite Forall_forall in F.
  specialize (F c Hc). lia.
Qed.

(** Every delivery preserves the invariant. *)
Lemma step_inv st t st' t' : Inv st t -> Step st t st' t' -> Inv st' t'.
Proof.
  intros I [ | k name a st1 t1 Hk Hkey Hc Hf Hp
             | k s cs st1 t1 Hk Hc Hf Hcs Hend Hp ]; [done| |].
  - (* a span is opened *)
    split.
    + rewrite Hc, Hf. apply Forall_app. split.
      * eapply Forall_impl; [apply (inv_fresh _ _ I)|]. cbn. lia.
      * repeat constructor.
    + intros s k1 k2. rewrite Hc, !started_app, !elem_of_app.
      cbn [started omap list_omap]. rewrite Hkey.
      pose proof (fresh_not_started _ _ k1 I).
      pose proof (fresh_not_started _ _ k2 I).
      intros [H1|H1] [H2|H2].
      * by apply (inv_unique _ _ I s).
      * destruct (decide (Some k = Some k2)); [|by apply elem_of_nil in H2].
        apply list_elem_of_singleton in H2. by subst.
      * destruct (decide (Some k = Some k1)); [|by apply elem_of_nil in H1].
        apply list_elem_of_singleton in H1. by subst.
      * destruct (decide (Some k = Some k1)); [|by apply elem_of_nil in H1].
        destruct (decide (Some k = Some k2)); [|by apply elem_of_nil in H2].
        congruence.
    + intros k'. rewrite Hc, open_spans_app_start by by eapply fresh_not_ended.
      rewrite (inv_open _ _ I), Hp, Hkey.
      destruct (decide (k' = k)) as [->|Hne].
      * rewrite Hk. by destruct (decide _).
      * destruct (decide (Some k = Some k')); [congruence|].
        by rewrite app_nil_r.
  - (* the entry of a key is closed *)
    assert (Hother : forall s', s' <> s -> ended cs s' = false).
    { intros s' Hne. apply not_true_is_false.
      intros (c & Hc' & E)%ended_target.
      rewrite Forall_forall in Hcs. destruct (Hcs c Hc') as [_ ?]. congruence. }
    split.
    + rewrite Hc, Hf. apply Forall_app. split; [apply (inv_fresh _ _ I)|].
      assert (Hs : s < fresh t).
      { pose proof (inv_open _ _ I k) as Ho. rewrite Hk in Ho. cbn in Ho.
        assert (Hin : s ∈ started (calls t) k).
        { apply list_elem_of_In.
          eapply (proj1 (filter_In _ s (started (calls t) k))).
          unfold open_spans in Ho. rewrite Ho. by left. }
        apply started_target in Hin as (c & Hc' & <- & _).
        pose proof (inv_fresh _ _ I) as F. rewrite Forall_forall in F. auto. }
      eapply Forall_impl; [exact Hcs|]. cbn. intros c [_ ->]. exact Hs.
    + intros s' k1 k2. rewrite Hc, !started_app.
      assert (Hnil : forall k0, started cs k0 = []).
      { intros k0. unfold started. clear -Hcs.
        induction Hcs as [|c cs [Hc _] _ IH]; [done|].
        cbn. rewrite Hc. by destruct (decide _). }
      rewrite !Hnil, !app_nil_r. apply (inv_unique _ _ I).
    + intros k'. rewrite Hc, open_spans_app_other
        by (eapply Forall_impl; [exact Hcs|]; by intros c [? _]).
      rewrite (inv_open _ _ I), Hp.
      destruct (decide (k' = k)) as [->|Hne].
      * rewrite Hk. cbn. by rewrite Hend.
      * destruct (pending st k') as [s'|] eqn:Hk'; [|done].
        cbn. rewrite Hother; [done|]. intros ->.
        apply Hne. apply (inv_unique _ _ I s).
        -- pose proof (inv_open _ _ I k') as Ho. rewrite Hk' in Ho.
           apply list_elem_of_In.
           eapply (proj1 (filter_In _ s (started (calls t) k'))).
           unfold open_spans in Ho. rewrite Ho. by left.
        -- pose proof (inv_open _ _ I k) as Ho. rewrite Hk in Ho.
           apply list_elem_of_In.
           eapply (proj1 (filter_In _ s (started (calls t) k))).
           unfold open_spans in Ho. rewrite Ho. by left.
Qed.

Lemma init_inv : Inv init new_tracer.
Proof.
  split; cbn.
  - constructor.
  - intros s k k' H. by apply elem_of_nil in H.
  - intros [h|i]; cbn; by rewrite lookup_empty.
Qed.

Lemma run_inv evs st t :
  Inv st t -> Inv (run evs st t).1 (run evs st t).2.
Proof.
  revert st t. induction evs as [|ev evs IH]; intros st t I; [done|].
  cbn [run]. unfold mbind, M_bind.
  pose proof (step_inv _ _ _ _ I (deliver_step ev st t)) as I'.
  destruct (deliver ev st t) as [st1 t1]. by apply IH.
Qed.

End QueryInvariant.

Section QueryTheorems.
Import Query.

(** C3. In every state the plugin reaches from its initial one, each
    correlation key (query hash or mutation id) has at most one open span,
    namely the entry of its table; and a further start event ('fetch' for
    a hash, 'pending' for a mutation id) for a key that has an entry
    starts no span and changes neither table. *)
Theorem C3_one_open_span_per_key (evs : list CacheEvent) :
  let st := (run evs init new_tracer).1 in
  let t := (run evs init new_tracer).2 in
  (forall k, length (open_spans (calls t) k) <= 1
             /\ open_spans (calls t) k = option_list (pending st k))
  /\ (forall q e s,
        querySpans st !! queryHash q = Some s ->
        queryListener
          {| q_type := "updated"; query := q;
             q_action := Some {| action_type := "fetch"; error := e |} |}
          st t = (st, t))
  /\ (forall mu e s,
        mutationSpans st !! mutationId mu = Some s ->
        mutationListener
          {| m_type := "updated"; mutation := Some mu;
             m_action := Some {| action_type := "pending"; error := e |} |}
          st t = (st, t)).
Proof.
  intros st t.
  pose proof (run_inv evs _ _ init_inv) as I. fold st t in I.
  split; [|split].
  - intros k. rewrite (inv_open _ _ I).
    split; [|done]. destruct (pending st k); cbn; lia.
  - intros q e s Hs. unfold queryListener. cbn. by rewrite Hs.
  - intros mu e s Hs. unfold mutationListener. cbn. by rewrite Hs.
Qed.

Lemma C3_one_open_span_per_key_witness :
  let q := {| queryKey := {| JSON_stringify := "[1]" |}; queryHash := "q1" |} in
  let fetch := {| q_type := "updated"; query := q;
                  q_action := Some {| action_type := "fetch";
                                      error := None |} |} in
  let r := run [QueryEvent fetch] init new_tracer in
  querySpans r.1 !! "q1" = Some 0
  /\ queryListener fetch r.1 r.2 = r
  /\ open_spans (calls r.2) (QKey "q1") = [0].
Proof.
  intros q fetch r.
  pose proof (C3_one_open_span_per_key [QueryEvent fetch]) as (Hopen & Hq & _).
  split; [reflexivity|]. split.
  - rewrite (surjective_pairing r) at 3. exact (Hq q None 0 eq_refl).
  - etransitivity; [exact (proj2 (Hopen (QKey "q1")))|reflexivity].
Defined.

End QueryTheorems.

(** ** HTTP plugin *)

(** Computes the calls a straight-line computation adds to the log. *)
Ltac emitted_calls :=
  apply emitted_app; run_tracer; rewrite <- ?app_assoc; reflexivity.

(** C2. [setup] followed by [teardown] puts back the very function values
    that [fetch], [XMLHttpRequest.prototype.open] and [.send] held before,
    and clears the snapshots, so that calling [fetch] afterwards is calling
    what was there before; [teardown] with no [setup] before it changes
    nothing; and a [teardown] right after a [teardown] changes nothing,
    whatever the state. *)
Theorem C2_teardown_restores_originals (g : Fetch.Globals) :
  Fetch.teardown (Fetch.setup (Fetch.init, g)) = (Fetch.init, g)
  /\ (forall config URL_href carrier input init,
        Fetch.call_fetch config URL_href carrier
          (Fetch.teardown (Fetch.setup (Fetch.init, g))) input init
        = Fetch.call_fetch config URL_href carrier (Fetch.init, g) input init)
  /\ Fetch.teardown (Fetch.init, g) = (Fetch.init, g)
  /\ (forall w, Fetch.teardown (Fetch.teardown w) = Fetch.teardown w).
Proof.
  assert (E : Fetch.teardown (Fetch.setup (Fetch.init, g)) = (Fetch.init, g))
    by by destruct g.
  split; [exact E|]. split; [intros; by rewrite E|]. split; [done|].
  intros [[[f|] [o|] [s|]] g']; reflexivity.
Qed.

(** C6. When the resolved URL matches an exclusion pattern, the patched
    [fetch] makes no call on the tracer and hands its own arguments to the
    real [fetch], whose outcome (value or failure) is the outcome of the
    call; the patched [send] makes no call on the tracer either and calls
    the real [send] on the untouched request object with the body. *)
Theorem C6_ignored_url_is_passed_through
    (config : Fetch.FetchPluginConfig)
    (URL_href : string -> Fetch.Completion string)
    (carrier : list (string * string)) :
  (forall originalFetch input init url t,
      Fetch.resolveUrl URL_href input = Fetch.Normal url ->
      Fetch.matchesAny url (Fetch.ignoreUrls config) = true ->
      Fetch.patchedFetch config URL_href carrier originalFetch input init t
      = ({| Fetch.passed := Some (input, init);
            Fetch.settled := originalFetch input init |}, t))
  /\ (forall originalXhrSend this body url t,
      Fetch.__otel_url this = Some url ->
      Fetch.matchesAny url (Fetch.ignoreUrls config) = true ->
      Fetch.patchedSend config carrier originalXhrSend this body t
      = (originalXhrSend this body, t)).
Proof.
  split.
  - intros orig input init url t Hurl Hm. unfold Fetch.patchedFetch.
    by rewrite Hurl, Hm.
  - intros orig this body url t Hurl Hm. unfold Fetch.patchedSend.
    rewrite Hurl. cbn [from_option id]. rewrite Hm.
    by rewrite orb_true_r.
Qed.

Lemma C6_ignored_url_is_passed_through_witness :
  let config :=
    {| Fetch.cfg_ignoreUrls :=
         Some [ {| Js.test := String.prefix "https://collector.example/" |} ];
       Fetch.cfg_propagateToUrls := None |} in
  let response := {| Fetch.status := 200; Fetch.response_headers := [] |} in
  let input := Fetch.InputString "https://collector.example/v1/traces" in
  Fetch.patchedFetch config Fetch.Normal [("traceparent", "00-1-2-01")]
    (fun _ _ => Fetch.Normal response) input None new_tracer
  = ({| Fetch.passed := Some (input, None);
        Fetch.settled := Fetch.Normal response |}, new_tracer).
Proof.
  intros config response input.
  apply (proj1 (C6_ignored_url_is_passed_through config Fetch.Normal _)
           (fun _ _ => Fetch.Normal response) input None
           "https://collector.example/v1/traces" new_tracer);
    reflexivity.
Defined.

(** C10. When the patched [send] runs on a request object on which no
    method or no URL was captured (its [open] did not go through the
    patched [open]), it makes no call on the tracer and calls the real
    [send] with the body on the request object as it is: no header set, no
    listener added. *)
Theorem C10_send_without_patched_open
    (config : Fetch.FetchPluginConfig) (carrier : list (string * string))
    (originalXhrSend : Fetch.SendFn) (this : Fetch.XMLHttpRequest)
    (body : option string) (t : Tracer) :
  Fetch.__otel_url this = None \/ Fetch.__otel_method this = None ->
  Fetch.patchedSend config carrier originalXhrSend this body t
  = (originalXhrSend this body, t).
Proof.
  intros [H|H]; unfold Fetch.patchedSend; rewrite H; cbn [Js.truthy negb orb].
  - reflexivity.
  - by rewrite orb_true_r.
Qed.

Lemma C10_send_without_patched_open_witness :
  let this := {| Fetch.__otel_method := None; Fetch.__otel_url := None;
                 Fetch.xhr_status := 0; Fetch.requestHeaders := [];
                 Fetch.listeners := [] |} in
  let config := {| Fetch.cfg_ignoreUrls := None;
                   Fetch.cfg_propagateToUrls :=
                     Some [ {| Js.test := fun _ => true |} ] |} in
  Fetch.patchedSend config [("traceparent", "00-1-2-01")]
    (fun x _ => (x, None)) this (Some "payload") new_tracer
  = ((this, None), new_tracer).
Proof.
  intros this config.
  apply (C10_send_without_patched_open config _ (fun x _ => (x, None))
           this (Some "payload") new_tracer).
  left. reflexivity.
Defined.

(** C4. Whatever call of the real [fetch] the patched one makes, when
    that call fails the promise of the patched [fetch] is rejected with the
    very value that was thrown.  For an instrumented request the patched
    [fetch] has started the span and built the headers [h] of the call by
    then; it sets the span's status to ERROR (with the error's message, or
    "Fetch failed" when the thrown value is no [Error]), records the
    exception exactly when the thrown value is an [Error], and ends the
    span. *)
Theorem C4_fetch_failure_is_recorded_and_rethrown
    (config : Fetch.FetchPluginConfig)
    (URL_href : string -> Fetch.Completion string)
    (carrier : list (string * string))
    (originalFetch : Fetch.FetchFn) (input : Fetch.RequestInfo)
    (init : option Fetch.RequestInit) (url : string) (error : Js.Value)
    (t : Tracer) :
  Fetch.resolveUrl URL_href input = Fetch.Normal url ->
  let m := Fetch.patchedFetch config URL_href carrier originalFetch input init in
  let method := Fetch.resolveMethod input init in
  (forall input' init',
      Fetch.passed (m t).1 = Some (input', init') ->
      originalFetch input' init' = Fetch.Throw error ->
      Fetch.settled (m t).1 = Fetch.Throw error)
  /\ (Fetch.matchesAny url (Fetch.ignoreUrls config) = false ->
      forall h,
      Fetch.outgoing_headers config carrier url init = Fetch.Normal h ->
      originalFetch input (Some (Fetch.with_headers init h))
      = Fetch.Throw error ->
      Fetch.passed (m t).1 = Some (input, Some (Fetch.with_headers init h))
      /\ emitted m t
         = [ StartSpan (fresh t) ("HTTP " +:+ method) None
               [("http.method", AStr method); ("http.url", AStr url)];
             SetStatus (fresh t)
               {| code := ERROR;
                  message := Some (match error with
                                   | Js.ErrorObj msg => msg
                                   | Js.NonError _ => "Fetch failed"
                                   end) |} ]
           ++ (if Js.instanceofError error
               then [RecordException (fresh t) error] else [])
           ++ [EndSpan (fresh t) None]).
Proof.
  intros Hurl m method. unfold m, Fetch.patchedFetch. rewrite Hurl. split.
  - intros input' init'.
    destruct (Fetch.matchesAny url (Fetch.ignoreUrls config)).
    + cbn. intros [= <- <-]. done.
    + run_tracer.
      destruct (Fetch.outgoing_headers config carrier url init) as [h|e];
        [|done].
      destruct (originalFetch input _) as [response|thrown] eqn:E.
      * destruct (Fetch.ok response); cbn; intros [= <- <-]; congruence.
      * destruct thrown; cbn; intros [= <- <-]; congruence.
  - intros Hign h Hh Hthrow. rewrite Hign. split.
    + run_tracer. rewrite Hh, Hthrow. by destruct error.
    + apply emitted_app. run_tracer. rewrite Hh, Hthrow.
      destruct error as [msg|tag]; run_tracer; cbn [Js.instanceofError];
        run_tracer; by rewrite <- ?app_assoc.
Qed.

Lemma C4_fetch_failure_is_recorded_and_rethrown_witness :
  let config := {| Fetch.cfg_ignoreUrls := None;
                   Fetch.cfg_propagateToUrls := None |} in
  let error := Js.ErrorObj "Failed to fetch" in
  let m := Fetch.patchedFetch config Fetch.Normal []
             (fun _ _ => Fetch.Throw error)
             (Fetch.InputString "https://api.example/items") None in
  emitted m new_tracer
  = [ StartSpan 0 "HTTP GET" None
        [("http.method", AStr "GET");
         ("http.url", AStr "https://api.example/items")];
      SetStatus 0 {| code := ERROR; message := Some "Failed to fetch" |};
      RecordException 0 error;
      EndSpan 0 None ]
  /\ Fetch.settled (m new_tracer).1 = Fetch.Throw error.
Proof.
  intros config error m.
  destruct (C4_fetch_failure_is_recorded_and_rethrown config Fetch.Normal []
              (fun _ _ => Fetch.Throw error)
              (Fetch.InputString "https://api.example/items") None
              "https://api.example/items" error new_tracer eq_refl)
    as [Hrethrow Hcalls].
  split.
  - exact (proj2 (Hcalls eq_refl [] eq_refl eq_refl)).
  - exact (Hrethrow _ _ eq_refl eq_refl).
Defined.

Section HeaderFacts.
Import Fetch.
#[local] Arguments same_name : simpl never.

Lemma same_name_eq a b :
  same_name a b = true <-> Js.toLowerCase a = Js.toLowerCase b.
Proof. apply String.eqb_eq. Qed.

Lemma same_name_neq a b :
  same_name a b = false <-> Js.toLowerCase a <> Js.toLowerCase b.
Proof. apply String.eqb_neq. Qed.

Lemma values_filter_other k name (h : Headers) :
  same_name k name = false ->
  Headers_values k (List.filter (fun e => negb (same_name e.1 name)) h)
  = Headers_values k h.
Proof.
  intros Hne. unfold Headers_values. f_equal.
  induction h as [|[n v] h IH]; [done|]. cbn.
  destruct (same_name n name) eqn:E1; cbn;
    destruct (same_name n k) eqn:E2; rewrite ?IH; try done.
  apply same_name_eq in E1, E2. apply same_name_neq in Hne. congruence.
Qed.

Lemma values_filter_same name (h : Headers) :
  Headers_values name (List.filter (fun e => negb (same_name e.1 name)) h) = [].
Proof.
  unfold Headers_values.
  induction h as [|[n v] h IH]; [done|]. cbn.
  destruct (same_name n name) eqn:E; cbn; [done|]. by rewrite E.
Qed.

(** After [set], exactly the value just set is stored under the name. *)
Lemma values_set_same name v (h : Headers) :
  Headers_values name (header_list_set name v h) = [v].
Proof.
  induction h as [|[n v0] h IH]; cbn.
  - unfold Headers_values. cbn.
    by rewrite (proj2 (same_name_eq name name) eq_refl).
  - destruct (same_name n name) eqn:E.
    + unfold Headers_values. cbn. rewrite E. cbn. f_equal.
      apply values_filter_same.
    + unfold Headers_values in *. cbn. by rewrite E.
Qed.

(** [set] leaves the headers of every other name alone. *)
Lemma values_set_other k name v (h : Headers) :
  same_name k name = false ->
  Headers_values k (header_list_set name v h) = Headers_values k h.
Proof.
  intros Hne. pose proof Hne as Hne'. apply same_name_neq in Hne'.
  induction h as [|[n v0] h IH]; cbn.
  - unfold Headers_values. cbn.
    destruct (same_name name k) eqn:E; [|done].
    apply same_name_eq in E. congruence.
  - destruct (same_name n name) eqn:E.
    + apply same_name_eq in E.
      assert (E2 : same_name n k = false) by (apply same_name_neq; congruence).
      transitivity
        (Headers_values k
           (List.filter (fun e => negb (same_name e.1 name)) h)).
      * unfold Headers_values. cbn. by rewrite E2.
      * rewrite values_filter_other by done.
        unfold Headers_values. cbn. by rewrite E2.
    + unfold Headers_values in *. cbn.
      destruct (same_name n k); cbn; by rewrite IH.
Qed.

Lemma values_same_name k k' (h : Headers) :
  same_name k' k = true -> Headers_values k h = Headers_values k' h.
Proof.
  intros E%same_name_eq. unfold Headers_values. f_equal.
  apply filter_ext. intros [n v]. unfold same_name. cbn. by rewrite E.
Qed.

(** A failure stays a failure through the rest of a loop. *)
Lemma fold_Throw {A B} (F : Completion B -> A -> Completion B)
    (l : list A) (e : Js.Value) :
  (forall x e', F (Throw e') x = Throw e') ->
  fold_left F l (Throw e) = Throw e.
Proof.
  intros HF. induction l as [|x l IH]; [done|]. cbn. by rewrite HF.
Qed.

(** [injectTraceHeaders] goes through exactly when [headers.set] accepts
    every entry of the carrier; it then sets each entry in turn, with its
    value normalized. *)
Lemma injectTraceHeaders_spec carrier (h : Headers) :
  match injectTraceHeaders carrier h with
  | Normal h' =>
      forallb valid_header carrier = true
      /\ h' = fold_left (fun h kv => header_list_set kv.1 (normalize kv.2) h)
                        carrier h
  | Throw e =>
      forallb valid_header carrier = false /\ Js.instanceofError e = true
  end.
Proof.
  unfold injectTraceHeaders. revert h.
  induction carrier as [|[k v] c IH]; intros h; [done|].
  cbn [fold_left forallb fst snd]. unfold Headers_set at 2.
  change (valid_header (k, v))
    with (is_header_name k && is_header_value (normalize v)).
  destruct (is_header_name k); cbn [negb andb].
  - destruct (is_header_value (normalize v)); cbn [negb andb].
    + apply IH.
    + by rewrite fold_Throw.
  - by rewrite fold_Throw.
Qed.

(** [new Headers] throws nothing but [Error]s. *)
Lemma new_Headers_throws_Error init e :
  new_Headers init = Throw e -> Js.instanceofError e = true.
Proof.
  unfold new_Headers. generalize (default [] init). intros l.
  generalize (@nil (string * string)).
  induction l as [|[k v] l IH]; intros h; [done|].
  cbn [fold_left fst snd]. unfold Headers_append at 2.
  destruct (is_header_name k); cbn [negb].
  - destruct (is_header_value (normalize v)); cbn [negb]; [apply IH|].
    rewrite fold_Throw by done. by intros [= <-].
  - rewrite fold_Throw by done. by intros [= <-].
Qed.

Lemma outgoing_headers_throws_Error config carrier url init e :
  outgoing_headers config carrier url init = Throw e ->
  Js.instanceofError e = true.
Proof.
  unfold outgoing_headers.
  destruct (new_Headers (init ≫= headers)) as [h0|e0] eqn:E0.
  - destruct (matchesAny url (propagateToUrls config)); [|done].
    pose proof (injectTraceHeaders_spec carrier h0) as S.
    destruct (injectTraceHeaders carrier h0) as [h|e1]; [done|].
    intros [= <-]. apply S.
  - intros [= <-]. by apply (new_Headers_throws_Error _ _ E0).
Qed.

(** After the carrier is injected, a name the carrier mentions holds the
    (normalized) value of the carrier's last entry of that name, and every
    other name holds what it held before. *)
Lemma values_inject carrier k (h : Headers) :
  Headers_values k
    (fold_left (fun h kv => header_list_set kv.1 (normalize kv.2) h) carrier h)
  = match last_value k carrier with
    | Some v => [normalize v]
    | None => Headers_values k h
    end.
Proof.
  unfold last_value. revert h.
  induction carrier as [|[k' v'] c IH]; intros h; [reflexivity|].
  cbn [fold_left fst snd]. rewrite IH.
  unfold Headers_values at 3. cbn [List.filter fst].
  fold (Headers_values k c).
  destruct (same_name k' k) eqn:E; cbn [map snd].
  - rewrite last_cons. fold (Headers_values k c).
    destruct (last (Headers_values k c)); [done|].
    rewrite (values_same_name k k') by done. apply values_set_same.
  - fold (Headers_values k c).
    destruct (last (Headers_values k c)); [done|].
    apply values_set_other. apply same_name_neq. apply same_name_neq in E.
    congruence.
Qed.

Lemma get_inject carrier k v (h h' : Headers) :
  injectTraceHeaders carrier h = Normal h' ->
  last_value k carrier = Some v ->
  Headers_get k h' = Some (normalize v).
Proof.
  intros E H. pose proof (injectTraceHeaders_spec carrier h) as S.
  rewrite E in S. destruct S as [_ ->].
  unfold Headers_get. by rewrite values_inject, H.
Qed.

(** Names the carrier does not mention keep the values the caller gave. *)
Lemma get_inject_other carrier k (h h' : Headers) :
  injectTraceHeaders carrier h = Normal h' ->
  last_value k carrier = None ->
  Headers_get k h' = Headers_get k h.
Proof.
  intros E H. pose proof (injectTraceHeaders_spec carrier h) as S.
  rewrite E in S. destruct S as [_ ->].
  unfold Headers_get. by rewrite values_inject, H.
Qed.


End HeaderFacts.



(** ** Data-fetch cache plugin: failures *)

(** C9. When an 'error' event carries a value that is not an [Error]
    (or no value at all), the listener makes exactly two calls on the span
    that is open for the key: it sets the status ERROR with the message
    "Unknown error", then ends the span; [recordException] is not called,
    and the key leaves its table.  (With no span open for the key it makes
    no call.)  This holds for queries and for mutations. *)
Theorem C9_non_error_value_reported_as_unknown
    (st : Query.State) (t : Tracer) (e : option Js.Value) :
  (forall msg, e <> Some (Js.ErrorObj msg)) ->
  let action := Some {| Query.action_type := "error"; Query.error := e |} in
  let expected (entry : option Span) :=
    match entry with
    | Some s =>
        [ SetStatus s {| code := ERROR; message := Some "Unknown error" |};
          EndSpan s None ]
    | None => []
    end in
  (forall q,
      let m := Query.queryListener
                 {| Query.q_type := "updated"; Query.query := q;
                    Query.q_action := action |} st in
      emitted m t = expected (Query.querySpans st !! Query.queryHash q)
      /\ Forall (fun c => is_recordException c = false) (emitted m t)
      /\ Query.querySpans (m t).1
         = delete (Query.queryHash q) (Query.querySpans st))
  /\ (forall mu,
      let m := Query.mutationListener
                 {| Query.m_type := "updated"; Query.mutation := Some mu;
                    Query.m_action := action |} st in
      emitted m t = expected (Query.mutationSpans st !! Query.mutationId mu)
      /\ Forall (fun c => is_recordException c = false) (emitted m t)
      /\ Query.mutationSpans (m t).1
         = delete (Query.mutationId mu) (Query.mutationSpans st)).
Proof.
  intros He action expected.
  assert (Hmsg : Query.error_message e = "Unknown error").
  { destruct e as [[msg|tag]|]; try done. by destruct (He msg). }
  assert (Hrec : forall s t', Query.record_if_error s e t' = (tt, t')).
  { intros s t'. destruct e as [[msg|tag]|]; try done. by destruct (He msg). }
  split.
  - intros q m.
    assert (E : emitted m t
                = expected (Query.querySpans st !! Query.queryHash q)).
    { apply emitted_app. unfold m, Query.queryListener.
      cbn [Query.q_action Query.q_type Query.query Query.action_type
           Query.error action String.eqb Ascii.eqb Bool.eqb negb andb].
      destruct (Query.querySpans st !! Query.queryHash q) as [s|];
        [|by rewrite app_nil_r].
      rewrite Hmsg. run_tracer. rewrite Hrec. run_tracer.
      by rewrite <- app_assoc. }
    rewrite E. split; [done|]. split.
    + destruct (Query.querySpans st !! Query.queryHash q);
        repeat constructor.
    + unfold m, Query.queryListener.
      cbn [Query.q_action Query.q_type Query.query Query.action_type
           Query.error action String.eqb Ascii.eqb Bool.eqb negb andb].
      destruct (Query.querySpans st !! Query.queryHash q) as [s|] eqn:Hs.
      * run_tracer. by rewrite Hrec.
      * cbn. by rewrite delete_id.
  - intros mu m.
    assert (E : emitted m t
                = expected (Query.mutationSpans st !! Query.mutationId mu)).
    { apply emitted_app. unfold m, Query.mutationListener.
      cbn [Query.m_action Query.m_type Query.mutation Query.action_type
           Query.error action String.eqb Ascii.eqb Bool.eqb negb andb].
      destruct (Query.mutationSpans st !! Query.mutationId mu) as [s|];
        [|by rewrite app_nil_r].
      rewrite Hmsg. run_tracer. rewrite Hrec. run_tracer.
      by rewrite <- app_assoc. }
    rewrite E. split; [done|]. split.
    + destruct (Query.mutationSpans st !! Query.mutationId mu);
        repeat constructor.
    + unfold m, Query.mutationListener.
      cbn [Query.m_action Query.m_type Query.mutation Query.action_type
           Query.error action String.eqb Ascii.eqb Bool.eqb negb andb].
      destruct (Query.mutationSpans st !! Query.mutationId mu) as [s|] eqn:Hs.
      * run_tracer. by rewrite Hrec.
      * cbn. by rewrite delete_id.
Qed.

Lemma C9_non_error_value_reported_as_unknown_witness :
  let q := {| Query.queryKey := {| Query.JSON_stringify := "[1]" |};
              Query.queryHash := "q1" |} in
  let st := {| Query.querySpans := {[ "q1" := 0 ]};
               Query.mutationSpans := ∅ |} in
  let t := {| calls := [StartSpan 0 "query [1]" None []]; fresh := 1 |} in
  let failed :=
    {| Query.q_type := "updated"; Query.query := q;
       Query.q_action :=
         Some {| Query.action_type := "error";
                 Query.error := Some (Js.NonError "timeout") |} |} in
  emitted (Query.queryListener failed st) t
  = [ SetStatus 0 {| code := ERROR; message := Some "Unknown error" |};
      EndSpan 0 None ].
Proof.
  intros q st t failed.
  assert (H : forall msg, Some (Js.NonError "timeout") <> Some (Js.ErrorObj msg)).
  { intros msg. discriminate. }
  exact (proj1 (proj1 (C9_non_error_value_reported_as_unknown st t _ H) q)).
Defined.

(** ** HTTP plugin: status of a completed request *)

Lemma append_empty_r (s : string) : s +:+ "" = s.
Proof.
  induction s as [|c s IH]; [done|].
  change (String c (s +:+ "") = String c s). by rewrite IH.
Qed.

Lemma http_message_contains_status (n : Z) :
  Js.contains ("HTTP " +:+ pretty n) (pretty n).
Proof. exists "HTTP ", "". by rewrite append_empty_r. Qed.

(** What the [loadend] listener does: OK exactly for a status from 200 to
    399, otherwise ERROR with the status in the message; then the span is
    ended. *)
Lemma xhr_loadend_calls (span : Span) (this : Fetch.XMLHttpRequest) (t : Tracer) :
  let n := Fetch.xhr_status this in
  emitted (Fetch.handle (Fetch.LoadendListener span) this) t
  = [ SetAttribute span "http.status_code" (AInt n);
      SetStatus span
        (if (200 <=? n)%Z && (n <? 400)%Z
         then {| code := OK; message := None |}
         else {| code := ERROR; message := Some ("HTTP " +:+ pretty n) |});
      EndSpan span None ].
Proof.
  cbv zeta. apply emitted_app. unfold Fetch.handle. run_tracer.
  destruct ((200 <=? _)%Z && _); run_tracer; by rewrite <- ?app_assoc.
Qed.

(** What the patched [fetch] does with a response: OK exactly when
    [response.ok] holds, that is for a status from 200 to 299, otherwise
    ERROR with the status in the message; then the span is ended and the
    response is returned. *)
Lemma fetch_response_calls
    (config : Fetch.FetchPluginConfig)
    (URL_href : string -> Fetch.Completion string)
    (carrier : list (string * string))
    (originalFetch : Fetch.FetchFn) (input : Fetch.RequestInfo)
    (init : option Fetch.RequestInit) (url : string) (h : Fetch.Headers)
    (response : Fetch.Response) (t : Tracer) :
  Fetch.resolveUrl URL_href input = Fetch.Normal url ->
  Fetch.matchesAny url (Fetch.ignoreUrls config) = false ->
  Fetch.outgoing_headers config carrier url init = Fetch.Normal h ->
  originalFetch input (Some (Fetch.with_headers init h))
  = Fetch.Normal response ->
  let m := Fetch.patchedFetch config URL_href carrier originalFetch input init in
  let method := Fetch.resolveMethod input init in
  let n := Fetch.status response in
  emitted m t
  = [ StartSpan (fresh t) ("HTTP " +:+ method) None
        [("http.method", AStr method); ("http.url", AStr url)];
      SetAttributes (fresh t)
        [("http.status_code", AInt n);
         ("http.response.content_length",
          AInt (Fetch.Number_or_0
                  (Fetch.Headers_get "content-length"
                     (Fetch.response_headers response))))];
      SetStatus (fresh t)
        (if (200 <=? n)%Z && (n <=? 299)%Z
         then {| code := OK; message := None |}
         else {| code := ERROR; message := Some ("HTTP " +:+ pretty n) |});
      EndSpan (fresh t) None ]
  /\ Fetch.settled (m t).1 = Fetch.Normal response.
Proof.
  intros Hurl Hign Hh Hresp m method n. unfold m, Fetch.patchedFetch.
  rewrite Hurl, Hign. split.
  - apply emitted_app. run_tracer. rewrite Hh, Hresp. unfold Fetch.ok. fold n.
    destruct ((200 <=? n)%Z && (n <=? 299)%Z); run_tracer;
      by rewrite <- ?app_assoc.
  - run_tracer. rewrite Hh, Hresp. by destruct (Fetch.ok response).
Qed.

(** C1, at a response with status 304 (a conditional request answered
    "Not Modified"): the [loadend] listener of the patched [send] marks the
    span OK, but the patched [fetch] marks it ERROR with the message
    "HTTP 304", because [response.ok] only covers 200 to 299. *)
Theorem C1_fetch_marks_redirect_status_as_error :
  let config := {| Fetch.cfg_ignoreUrls := None;
                   Fetch.cfg_propagateToUrls := None |} in
  let response := {| Fetch.status := 304; Fetch.response_headers := [] |} in
  let this := {| Fetch.__otel_method := Some "GET";
                 Fetch.__otel_url := Some "https://api.example/items";
                 Fetch.xhr_status := 304;
                 Fetch.requestHeaders := [];
                 Fetch.listeners := [("loadend", Fetch.LoadendListener 0)] |} in
  emitted (Fetch.patchedFetch config Fetch.Normal []
             (fun _ _ => Fetch.Normal response)
             (Fetch.InputString "https://api.example/items") None) new_tracer
  = [ StartSpan 0 "HTTP GET" None
        [("http.method", AStr "GET");
         ("http.url", AStr "https://api.example/items")];
      SetAttributes 0
        [("http.status_code", AInt 304);
         ("http.response.content_length", AInt 0)];
      SetStatus 0 {| code := ERROR; message := Some "HTTP 304" |};
      EndSpan 0 None ]
  /\ emitted (Fetch.dispatchEvent "loadend" this) new_tracer
     = [ SetAttribute 0 "http.status_code" (AInt 304);
         SetStatus 0 {| code := OK; message := None |};
         EndSpan 0 None ].
Proof. split; vm_compute; reflexivity. Qed.

(** ** Page-load plugin *)

Section DocumentLoadFacts.
Import DocumentLoad.

(** Paint spans extend the log, and none of them is a navigation span. *)
Lemma emitPaintSpans_calls href entries navigationStart t :
  exists cs,
    calls (emitPaintSpans href entries navigationStart t).2 = calls t ++ cs
    /\ Forall (fun c => is_navigation_span c = false) cs.
Proof.
  revert t. induction entries as [|entry rest IH]; intros t.
  - exists []. split; [by rewrite app_nil_r | constructor].
  - cbn [emitPaintSpans].
    destruct (negb (String.eqb (name entry) "first-paint")
              && negb (String.eqb (name entry) "first-contentful-paint"))
      eqn:E; run_tracer.
    + apply IH.
    + match goal with |- context [emitPaintSpans _ _ _ ?t1] =>
        destruct (IH t1) as (cs & Hcs & Hnav) end.
      eexists (_ :: _ :: cs). rewrite Hcs. cbn [calls].
      split; [by rewrite <- !app_assoc|].
      repeat constructor; [|done].
      cbn. apply andb_false_iff in E as [E|E];
        apply negb_false_iff, String.eqb_eq in E; by rewrite E.
Qed.

Lemma emitNavigationSpan_calls b navigation rest t :
  navigation_entries b = navigation :: rest ->
  exists attributes,
    calls (emitNavigationSpan b t).2
    = calls t ++
      [ StartSpan (fresh t) "document.load" (Some (startTime navigation))
          attributes;
        EndSpan (fresh t) (Some (loadEventEnd navigation)) ].
Proof.
  intros H. eexists. unfold emitNavigationSpan.
  rewrite H. run_tracer. rewrite <- app_assoc. reflexivity.
Qed.

(** Firing "load" on the state [setup] leaves for a page that was still
    loading. *)
Lemma fire_load_once ob1 ob2 b t navigation rest :
  navigation_entries b = navigation :: rest ->
  let loaded :=
    fire "load" b
      {| window_listeners := [ {| event := "load"; once := true |} ];
         paintObserver := ob1; observer := ob2 |} in
  (exists attributes,
      emitted loaded t
      = [ StartSpan (fresh t) "document.load" (Some (startTime navigation))
            attributes;
          EndSpan (fresh t) (Some (loadEventEnd navigation)) ])
  /\ window_listeners (loaded t).1 = []
  /\ forall b' t', emitted (fire "load" b' (loaded t).1) t' = [].
Proof.
  intros Hnav loaded.
  destruct (emitNavigationSpan_calls b navigation rest t Hnav) as (a & Ha).
  unfold loaded, fire.
  cbn [window_listeners run_listeners event once List.filter
       String.eqb Ascii.eqb Bool.eqb andb negb when].
  split; [|split].
  - exists a. apply emitted_app. rewrite !bind_run. cbn [snd calls]. exact Ha.
  - by rewrite !bind_run.
  - intros b' t'. apply emitted_app. rewrite !bind_run. cbn.
    by rewrite app_nil_r.
Qed.

End DocumentLoadFacts.

(** C8. With [document.readyState] equal to "complete" at [setup] and a
    navigation entry recorded, [setup] itself emits the navigation span,
    first thing, started at the entry's [startTime] and ended at its
    [loadEventEnd], and registers no listener.  With any other ready state
    [setup] emits no navigation span and registers one once-only listener
    for "load"; when "load" fires, that listener emits the span from the
    entry recorded by then and is gone afterwards, so that a further "load"
    emits nothing.  With the ready state "complete" and no navigation entry
    recorded, [setup] emits no navigation span and registers no listener. *)
Theorem C8_navigation_span_when_loaded (b : DocumentLoad.Browser) (t : Tracer) :
  let m := DocumentLoad.setup b DocumentLoad.init in
  (DocumentLoad.readyState b = "complete" ->
   forall navigation rest,
     DocumentLoad.navigation_entries b = navigation :: rest ->
     exists attributes more,
       emitted m t
       = StartSpan (fresh t) "document.load"
           (Some (DocumentLoad.startTime navigation)) attributes
         :: EndSpan (fresh t) (Some (DocumentLoad.loadEventEnd navigation))
         :: more
       /\ Forall (fun c => DocumentLoad.is_navigation_span c = false) more
       /\ DocumentLoad.window_listeners (m t).1 = [])
  /\ (DocumentLoad.readyState b <> "complete" ->
      Forall (fun c => DocumentLoad.is_navigation_span c = false) (emitted m t)
      /\ DocumentLoad.window_listeners (m t).1
         = [ {| DocumentLoad.event := "load"; DocumentLoad.once := true |} ]
      /\ forall b' t' navigation rest,
          DocumentLoad.navigation_entries b' = navigation :: rest ->
          let loaded := DocumentLoad.fire "load" b' (m t).1 in
          (exists attributes,
              emitted loaded t'
              = [ StartSpan (fresh t') "document.load"
                    (Some (DocumentLoad.startTime navigation)) attributes;
                  EndSpan (fresh t')
                    (Some (DocumentLoad.loadEventEnd navigation)) ])
          /\ DocumentLoad.window_listeners (loaded t').1 = []
          /\ forall b'' t'',
              emitted (DocumentLoad.fire "load" b'' (loaded t').1) t'' = [])
  /\ (DocumentLoad.readyState b = "complete" ->
      DocumentLoad.navigation_entries b = [] ->
      Forall (fun c => DocumentLoad.is_navigation_span c = false) (emitted m t)
      /\ DocumentLoad.window_listeners (m t).1 = []).
Proof.
  intros m. split; [|split].
  - intros Hready navigation rest Hnav.
    destruct (emitNavigationSpan_calls b navigation rest t Hnav) as (a & Ha).
    unfold m, DocumentLoad.setup. rewrite Hready, Hnav, String.eqb_refl.
    set (t1 := (DocumentLoad.emitNavigationSpan b t).2) in *.
    destruct (0 <? length (DocumentLoad.paint_entries b))%nat.
    + destruct (emitPaintSpans_calls (DocumentLoad.location_href b)
                  (DocumentLoad.paint_entries b)
                  (DocumentLoad.startTime navigation) t1)
        as (cs & Hcs & Hnone).
      exists a, cs. split; [|split; [exact Hnone|]].
      * apply emitted_app. rewrite !bind_run. cbn [snd mret M_ret].
        fold t1. rewrite Hcs, Ha. by rewrite <- app_assoc.
      * by rewrite !bind_run.
    + exists a, []. split; [|split; [constructor|]].
      * apply emitted_app. rewrite !bind_run. exact Ha.
      * by rewrite !bind_run.
  - intros Hready. apply String.eqb_neq in Hready.
    unfold m, DocumentLoad.setup. rewrite Hready.
    set (ns := match DocumentLoad.navigation_entries b with
               | [] => 0%float
               | n :: _ => DocumentLoad.startTime n
               end).
    destruct (0 <? length (DocumentLoad.paint_entries b))%nat.
    + destruct (emitPaintSpans_calls (DocumentLoad.location_href b)
                  (DocumentLoad.paint_entries b) ns t)
        as (cs & Hcs & Hnone).
      rewrite !bind_run. cbn [fst snd mret M_ret]. split; [|split].
      * erewrite emitted_app; [exact Hnone|].
        rewrite !bind_run. exact Hcs.
      * reflexivity.
      * intros b' t' navigation rest Hnav.
        exact (fire_load_once _ _ b' t' navigation rest Hnav).
    + rewrite !bind_run. cbn [fst snd mret M_ret]. split; [|split].
      * erewrite emitted_app; [constructor|].
        rewrite !bind_run. cbn. by rewrite app_nil_r.
      * reflexivity.
      * intros b' t' navigation rest Hnav.
        exact (fire_load_once _ _ b' t' navigation rest Hnav).
  - intros Hready Hnav.
    unfold m, DocumentLoad.setup, DocumentLoad.emitNavigationSpan.
    rewrite Hready, Hnav, String.eqb_refl.
    destruct (0 <? length (DocumentLoad.paint_entries b))%nat.
    + destruct (emitPaintSpans_calls (DocumentLoad.location_href b)
                  (DocumentLoad.paint_entries b) 0%float t)
        as (cs & Hcs & Hnone).
      rewrite !bind_run. cbn [fst snd mret M_ret]. split; [|reflexivity].
      erewrite emitted_app; [exact Hnone|].
      rewrite !bind_run. exact Hcs.
    + rewrite !bind_run. cbn [fst snd mret M_ret]. split; [|reflexivity].
      erewrite emitted_app; [constructor|].
      rewrite !bind_run. cbn. by rewrite app_nil_r.
Qed.

Lemma C8_navigation_span_when_loaded_witness :
  let navigation :=
    {| DocumentLoad.startTime := 0%float;
       DocumentLoad.type := "navigate";
       DocumentLoad.redirectCount := 0%float;
       DocumentLoad.domainLookupStart := 2%float;
       DocumentLoad.domainLookupEnd := 10%float;
       DocumentLoad.connectStart := 10%float;
       DocumentLoad.connectEnd := 31.5%float;
       DocumentLoad.secureConnectionStart := 14%float;
       DocumentLoad.requestStart := 32%float;
       DocumentLoad.responseStart := 80.25%float;
       DocumentLoad.responseEnd := 95%float;
       DocumentLoad.domInteractive := 410%float;
       DocumentLoad.domContentLoadedEventEnd := 455%float;
       DocumentLoad.loadEventEnd := 1250.5%float;
       DocumentLoad.transferSize := 5120%float;
       DocumentLoad.decodedBodySize := 20480%float |} in
  let page state :=
    {| DocumentLoad.readyState := state;
       DocumentLoad.location_href := "https://app.example/";
       DocumentLoad.navigation_entries := [navigation];
       DocumentLoad.paint_entries := [];
       DocumentLoad.PerformanceObserver_defined := true;
       DocumentLoad.observable := fun _ => true |} in
  (exists attributes more,
      emitted (DocumentLoad.setup (page "complete") DocumentLoad.init) new_tracer
      = StartSpan 0 "document.load" (Some 0%float) attributes
        :: EndSpan 0 (Some 1250.5%float) :: more)
  /\ emitted (DocumentLoad.setup (page "loading") DocumentLoad.init) new_tracer
     = [].
Proof.
  intros navigation page. split.
  - destruct (proj1 (C8_navigation_span_when_loaded (page "complete") new_tracer)
                eq_refl navigation [] eq_refl)
      as (attributes & more & H & _).
    exists attributes, more. exact H.
  - reflexivity.
Defined.

(** C8, at a page that is "complete" but has no navigation entry in its
    performance timeline: [emitNavigationSpan] returns at its guard and
    [setup] emits no span at all. *)
Lemma C8_complete_without_entry_emits_nothing :
  let page :=
    {| DocumentLoad.readyState := "complete";
       DocumentLoad.location_href := "https://app.example/";
       DocumentLoad.navigation_entries := [];
       DocumentLoad.paint_entries := [];
       DocumentLoad.PerformanceObserver_defined := true;
       DocumentLoad.observable := fun _ => true |} in
  DocumentLoad.readyState page = "complete"
  /\ emitted (DocumentLoad.setup page DocumentLoad.init) new_tracer = []
  /\ DocumentLoad.window_listeners
       (DocumentLoad.setup page DocumentLoad.init new_tracer).1 = [].
Proof. repeat split. Qed.

(** ** Small checks of the runtime fragments *)

Example toUpperCase_get : Js.toUpperCase "get" = "GET".
Proof. reflexivity. Qed.

Example truthy_empty : Js.truthy (Some "") = false /\ Js.truthy None = false.
Proof. split; reflexivity. Qed.

Example Headers_set_overwrites :
  Fetch.Headers_set "TraceParent" " new "
    [("accept", "*/*"); ("traceparent", "old"); ("Traceparent", "older")]
  = Fetch.Normal [("accept", "*/*"); ("traceparent", "new")].
Proof. reflexivity. Qed.

Example new_Headers_checks :
  Fetch.new_Headers (Some [("Accept", "text/html"); ("accept", " */* ")])
  = Fetch.Normal [("Accept", "text/html"); ("Accept", "*/*")]
  /\ Fetch.new_Headers None = Fetch.Normal []
  /\ (exists e, Fetch.new_Headers (Some [("bad name", "x")]) = Fetch.Throw e)
  /\ (exists e, Fetch.new_Headers (Some [("x-note", String "a" (String (ascii_of_nat 10) "b"))])
                = Fetch.Throw e).
Proof. repeat split; eexists; reflexivity. Qed.

Example Number_or_0_values :
  Fetch.Number_or_0 (Some "1024") = 1024%Z
  /\ Fetch.Number_or_0 None = 0%Z
  /\ Fetch.Number_or_0 (Some "chunked") = 0%Z.
Proof. repeat split. Qed.

Example resolveMethod_defaults :
  let config := {| Fetch.cfg_ignoreUrls := None;
                   Fetch.cfg_propagateToUrls := None |} in
  Fetch.resolveMethod (Fetch.InputString "/a") None = "GET"
  /\ Fetch.resolveMethod (Fetch.InputString "/a")
       (Some {| Fetch.method := Some "post"; Fetch.headers := None;
                Fetch.body := None |}) = "POST"
  /\ Fetch.resolveMethod
       (Fetch.InputRequest {| Fetch.url := "/a"; Fetch.request_method := "put";
                              Fetch.request_headers := [] |})
       None = "PUT".
Proof. repeat split. Qed.

Example xhr_error_then_loadend :
  let this := {| Fetch.__otel_method := Some "GET";
                 Fetch.__otel_url := Some "https://api.example/items";
                 Fetch.xhr_status := 0;
                 Fetch.requestHeaders := [];
                 Fetch.listeners := [("loadend", Fetch.LoadendListener 0);
                                     ("error", Fetch.ErrorListener 0)] |} in
  emitted (Fetch.dispatchEvent "error" this) new_tracer
  = [ SetStatus 0 {| code := ERROR; message := Some "XHR request failed" |};
      EndSpan 0 None ].
Proof. reflexivity. Qed.

Example navigation_resolved :
  let event := {| Router.type := "onBeforeNavigate";
                  Router.fromLocation := Some {| Router.pathname := "/" |};
                  Router.toLocation := {| Router.pathname := "/users" |};
                  Router.pathChanged := true |} in
  let r := (st ← Router.beforeNavigateListener event Router.init;
            Router.resolvedListener st) new_tracer in
  calls r.2
  = [ StartSpan 0 "navigate /users" None
        [("router.from", AStr "/"); ("router.to", AStr "/users");
         ("router.path_changed", ABool true)];
      SetStatus 0 {| code := OK; message := None |};
      EndSpan 0 None ]
  /\ Router.activeSpan r.1 = None.
Proof. split; reflexivity. Qed.

(* ====================================================================== *)
(** * Further properties of the plugins *)
(* ====================================================================== *)

(** ** Span lifetimes *)

Section LifetimeFacts.
Import Lifetime.

Lemma lifetime_started_app log cs : started (log ++ cs) = started log ++ started cs.
Proof. unfold started. by rewrite List.filter_app, map_app. Qed.

Lemma open_app_start log f name time a :
  Query.ended log f = false ->
  open (log ++ [StartSpan f name time a]) = open log ++ [f].
Proof.
  intros Hf. unfold open. rewrite lifetime_started_app, List.filter_app.
  f_equal.
  - apply filter_ext. intros s. by rewrite ended_app, orb_false_r.
  - cbn. by rewrite ended_app, Hf.
Qed.

Lemma open_app_other log cs :
  Forall (fun c => is_startSpan c = false) cs ->
  open (log ++ cs) = List.filter (fun s => negb (Query.ended cs s)) (open log).
Proof.
  intros H. unfold open. rewrite lifetime_started_app.
  assert (started cs = []) as ->.
  { unfold started. induction H as [|c cs Hc _ IH]; [done|].
    cbn. by rewrite Hc. }
  rewrite app_nil_r, <- filter_andb. apply filter_ext.
  intros s. by rewrite ended_app, negb_orb.
Qed.

Lemma open_started log s : In s (open log) -> In s (started log).
Proof. unfold open. rewrite filter_In. tauto. Qed.

Lemma open_not_ended log s : In s (open log) -> Query.ended log s = false.
Proof. unfold open. rewrite filter_In. intros [_ H]. by apply negb_true_iff. Qed.

Lemma started_below log n s :
  Forall (fun c => target c < n) log -> In s (started log) -> s < n.
Proof.
  intros F. unfold started. rewrite in_map_iff.
  intros (c & <- & Hc%filter_In). rewrite Forall_forall in F.
  apply F. apply list_elem_of_In. tauto.
Qed.

Lemma below_not_ended log n s :
  Forall (fun c => target c < n) log -> n <= s -> Query.ended log s = false.
Proof.
  intros F Hs. apply not_true_is_false. intros (c & Hc & E)%ended_target.
  rewrite Forall_forall in F. specialize (F c Hc). lia.
Qed.

Lemma unused_after_end_app seen l cs :
  unused_after_end seen (l ++ cs)
  = unused_after_end seen l && unused_after_end (seen ++ l) cs.
Proof.
  revert seen. induction l as [|c l IH]; intros seen; cbn.
  - by rewrite app_nil_r.
  - rewrite IH, <- app_assoc. cbn. by rewrite andb_assoc.
Qed.

Lemma no_use_after_end_app log cs :
  no_use_after_end (log ++ cs)
  = no_use_after_end log && unused_after_end log cs.
Proof. unfold no_use_after_end. by rewrite unused_after_end_app. Qed.

(** Calls on one span that has not been ended, closed by its [end()]. *)
Lemma unused_after_end_closing log s pre e :
  Query.ended log s = false ->
  Forall (fun c => target c = s /\ is_endSpan c = false) pre ->
  unused_after_end log (pre ++ [EndSpan s e]) = true.
Proof.
  revert log. induction pre as [|c pre IH]; intros log Hs Hpre.
  - cbn. by rewrite Hs.
  - apply Forall_cons in Hpre as [[Hc He] Hpre]. cbn. rewrite Hc, Hs. cbn.
    apply IH; [|done]. rewrite ended_app, Hs. cbn.
    destruct c; try done.
Qed.

Lemma ended_closing pre s e s' :
  Forall (fun c => target c = s /\ is_endSpan c = false) pre ->
  Query.ended (pre ++ [EndSpan s e]) s' = Nat.eqb s' s.
Proof.
  intros Hpre. rewrite ended_app. cbn. rewrite orb_false_r.
  assert (Query.ended pre s' = false) as ->; [|done].
  induction Hpre as [|c pre [_ Hc] _ IH]; [done|].
  cbn. destruct c; try done.
Qed.

(** A fresh span is started. *)
Lemma tracks_start active t name time a :
  tracks active t ->
  tracks (active ++ [fresh t])
    {| calls := calls t ++ [StartSpan (fresh t) name time a];
       fresh := S (fresh t) |}.
Proof.
  intros (F & O & C). pose proof (below_not_ended _ _ (fresh t) F (le_n _)) as Hf.
  split; [|split]; cbn [calls fresh].
  - apply Forall_app. split.
    + eapply Forall_impl; [exact F|]. cbn. lia.
    + repeat constructor.
  - by rewrite open_app_start, O.
  - rewrite no_use_after_end_app, C. cbn. by rewrite Hf.
Qed.

(** An open span receives calls and is ended. *)
Lemma tracks_end active t s pre e :
  tracks active t ->
  In s active ->
  Forall (fun c => target c = s /\ is_endSpan c = false
                   /\ is_startSpan c = false) pre ->
  tracks (List.filter (fun s' => negb (Nat.eqb s' s)) active)
    {| calls := calls t ++ pre ++ [EndSpan s e]; fresh := fresh t |}.
Proof.
  intros (F & O & C) Hs Hpre. subst active.
  assert (Hpre' : Forall (fun c => target c = s /\ is_endSpan c = false) pre).
  { eapply Forall_impl; [exact Hpre|]. cbn. tauto. }
  split; [|split]; cbn [calls fresh].
  - apply Forall_app. split; [done|].
    pose proof (started_below _ _ _ F (open_started _ _ Hs)) as Hlt.
    apply Forall_app. split; [|by repeat constructor].
    eapply Forall_impl; [exact Hpre|]. cbn. by intros c (-> & _).
  - rewrite open_app_other.
    + apply filter_ext. intros s'. by rewrite ended_closing.
    + apply Forall_app. split; [|by repeat constructor].
      eapply Forall_impl; [exact Hpre|]. cbn. tauto.
  - rewrite no_use_after_end_app, C. cbn.
    apply unused_after_end_closing; [|done]. by apply open_not_ended.
Qed.

Lemma end_count_bound seen rest s :
  unused_after_end seen rest = true ->
  end_count rest s <= 1
  /\ (Query.ended seen s = true -> end_count rest s = 0).
Proof.
  revert seen. induction rest as [|c rest IH]; intros seen H;
    [cbn; split; [lia|done]|].
  cbn in H. apply andb_prop in H as [Hc H]. apply negb_true_iff in Hc.
  destruct (IH _ H) as [IH1 IH2]. unfold end_count in *. cbn [List.filter].
  destruct (is_end_of s c) eqn:E.
  - destruct c; try discriminate. cbn in E. apply Nat.eqb_eq in E. subst s0.
    cbn [target] in Hc. cbn [length].
    rewrite IH2; [split; [lia|congruence]|].
    rewrite ended_app. cbn. by rewrite Nat.eqb_refl, orb_true_r.
  - split; [done|]. intros Hs. apply IH2. by rewrite ended_app, Hs.
Qed.

(** A span that is never used after its end is ended at most once. *)
Lemma ended_at_most_once log s :
  no_use_after_end log = true -> end_count log s <= 1.
Proof. intros H. by apply (end_count_bound [] log s). Qed.

Lemma tracks_new : tracks [] new_tracer.
Proof. repeat split. constructor. Qed.

End LifetimeFacts.

(** ** Navigation plugin: the whole lifecycle *)

Section RouterFacts.
Import Lifetime Router.

Lemma tracker_eq (t : Tracer) cs n :
  cs = calls t -> n = fresh t -> {| calls := cs; fresh := n |} = t.
Proof. destruct t. cbn. by intros -> ->. Qed.

Lemma beforeNavigateListener_tracks event st t :
  tracks (option_list (activeSpan st)) t ->
  tracks (option_list (activeSpan (beforeNavigateListener event st t).1))
         (beforeNavigateListener event st t).2.
Proof.
  intros T. unfold beforeNavigateListener.
  destruct (activeSpan st) as [s|] eqn:Hs; run_tracer.
  - pose proof (tracks_end _ _ s [] None T (or_introl eq_refl)
                  (List.Forall_nil _)) as T1.
    cbn in T1. rewrite Nat.eqb_refl in T1. cbn in T1.
    exact (tracks_start [] _ _ None _ T1).
  - exact (tracks_start [] _ _ None _ T).
Qed.

Lemma resolvedListener_tracks st t :
  tracks (option_list (activeSpan st)) t ->
  tracks (option_list (activeSpan (resolvedListener st t).1))
         (resolvedListener st t).2.
Proof.
  intros T. unfold resolvedListener.
  destruct (activeSpan st) as [s|] eqn:Hs; run_tracer; [|by rewrite Hs].
  pose proof (tracks_end _ _ s
                [SetStatus s {| code := OK; message := None |}] None T
                (or_introl eq_refl)) as T1.
  cbn in T1. rewrite Nat.eqb_refl in T1. cbn in T1.
  rewrite <- app_assoc. apply T1. by repeat constructor.
Qed.

Lemma notify_tracks {A} (regs : list A) ty event st t :
  tracks (option_list (activeSpan st)) t ->
  tracks (option_list (activeSpan (notify regs ty event st t).1))
         (notify regs ty event st t).2.
Proof.
  revert st t. induction regs as [|x regs IH]; intros st t T; [done|].
  cbn [notify]. rewrite bind_run. apply IH.
  destruct ty; [by apply beforeNavigateListener_tracks
               |by apply resolvedListener_tracks].
Qed.

Lemma teardown_tracks w t :
  tracks (option_list (activeSpan w.1)) t ->
  tracks [] (teardown w t).2 /\ activeSpan (teardown w t).1.1 = None.
Proof.
  destruct w as [st r]. cbn [fst]. intros T. unfold teardown.
  destruct (activeSpan st) as [s|] eqn:Hs; run_tracer; [|by rewrite Hs].
  split; [|done].
  pose proof (tracks_end _ _ s [] None T (or_introl eq_refl)
                (List.Forall_nil _)) as T1.
  cbn in T1. by rewrite Nat.eqb_refl in T1.
Qed.

(** The calls of [teardown]: [end()] on the active span, if there is one. *)
Lemma teardown_log w t :
  calls (teardown w t).2
  = calls t ++ match activeSpan w.1 with
               | Some s => [EndSpan s None]
               | None => []
               end.
Proof.
  destruct w as [st r]. cbn [fst]. unfold teardown.
  destruct (activeSpan st) as [s|]; run_tracer; [done|by rewrite app_nil_r].
Qed.

Lemma act_tracks a w t :
  tracks (option_list (activeSpan w.1)) t ->
  tracks (option_list (activeSpan (act a w t).1.1)) (act a w t).2.
Proof.
  intros T. destruct a as [| |ty event]; cbn [act].
  - by destruct w as [st [n l]].
  - destruct (teardown_tracks w t T) as [T1 ->]. exact T1.
  - unfold emit. rewrite bind_run. cbn. by apply notify_tracks.
Qed.

Lemma run_tracks actions w t :
  tracks (option_list (activeSpan w.1)) t ->
  tracks (option_list (activeSpan (run actions w t).1.1)) (run actions w t).2.
Proof.
  revert w t. induction actions as [|a actions IH]; intros w t T; [done|].
  cbn [run]. rewrite bind_run. apply IH. by apply act_tracks.
Qed.

(** Listeners and emissions leave the router and the handles alone. *)
Lemma listener_keeps_handles ty event st t :
  unsubBeforeNavigate (listener ty event st t).1 = unsubBeforeNavigate st
  /\ unsubResolved (listener ty event st t).1 = unsubResolved st.
Proof.
  destruct ty; cbn [listener].
  - unfold beforeNavigateListener. by destruct (activeSpan st).
  - unfold resolvedListener. by destruct (activeSpan st).
Qed.

Lemma notify_keeps_handles {A} (regs : list A) ty event st t :
  unsubBeforeNavigate (notify regs ty event st t).1 = unsubBeforeNavigate st
  /\ unsubResolved (notify regs ty event st t).1 = unsubResolved st.
Proof.
  revert st t. induction regs as [|x regs IH]; intros st t; [done|].
  cbn [notify]. rewrite bind_run.
  destruct (IH (listener ty event st t).1 (listener ty event st t).2) as [-> ->].
  apply listener_keeps_handles.
Qed.

Lemma emits_keep_router actions w t :
  forallb is_Emit actions = true ->
  (run actions w t).1.2 = w.2
  /\ unsubBeforeNavigate (run actions w t).1.1 = unsubBeforeNavigate w.1
  /\ unsubResolved (run actions w t).1.1 = unsubResolved w.1.
Proof.
  revert w t. induction actions as [|a actions IH]; intros w t H; [done|].
  cbn in H. apply andb_prop in H as [Ha H].
  destruct a as [| |ty event]; try discriminate.
  cbn [run act]. rewrite bind_run.
  destruct (IH (emit ty event w t).1 (emit ty event w t).2 H) as (-> & -> & ->).
  unfold emit. rewrite bind_run. cbn.
  split; [done|]. apply notify_keeps_handles.
Qed.

Lemma run_app actions1 actions2 w t :
  run (actions1 ++ actions2) w t
  = run actions2 (run actions1 w t).1 (run actions1 w t).2.
Proof.
  revert w t. induction actions1 as [|a actions1 IH]; intros w t; [done|].
  cbn [app run]. rewrite !bind_run. apply IH.
Qed.

Lemma filter_handles_below (l : list (nat * EventType)) n m :
  Forall (fun s => s.1 < n) l -> n <= m ->
  List.filter (fun s => negb (Nat.eqb s.1 m)) l = l.
Proof.
  intros F Hm. induction F as [|[h ty] l Hh _ IH]; [done|].
  cbn in *. rewrite IH. by rewrite (proj2 (Nat.eqb_neq h m)) by lia.
Qed.

End RouterFacts.

(** X1. Whatever the plugin goes through from its creation ([setup],
    [teardown] and router events, in any order and number), the navigation
    spans that are open in the tracer are exactly the plugin's active span:
    there is at most one, no call is ever made on a span after its
    [end()], and no span is ended twice. *)
Theorem router_one_active_navigation (actions : list Router.Action) :
  let r := Router.run actions (Router.init, Router.new_router) new_tracer in
  Lifetime.open (calls r.2) = option_list (Router.activeSpan r.1.1)
  /\ length (Lifetime.open (calls r.2)) <= 1
  /\ Lifetime.no_use_after_end (calls r.2) = true
  /\ forall s, Lifetime.end_count (calls r.2) s <= 1.
Proof.
  intros r.
  destruct (run_tracks actions (Router.init, Router.new_router) new_tracer
              tracks_new) as (_ & O & C).
  fold r in O, C. split; [exact O|]. split; [|split; [exact C|]].
  - rewrite O. destruct (Router.activeSpan r.1.1); cbn; lia.
  - intros s. by apply ended_at_most_once.
Qed.

(** X2. [teardown] ends the navigation that is still in flight, and does
    nothing else on the tracer: after any history, its only call is
    [end()] on the active span (no status is set, no exception recorded),
    and it makes no call at all when no navigation is in flight.
    Afterwards no navigation span is open and the plugin holds no active
    span. *)
Theorem router_teardown_closes_navigation (actions : list Router.Action) :
  let before := Router.run actions (Router.init, Router.new_router) new_tracer in
  let r := Router.run (actions ++ [Router.Teardown])
             (Router.init, Router.new_router) new_tracer in
  calls r.2
  = calls before.2
    ++ match Router.activeSpan before.1.1 with
       | Some s => [EndSpan s None]
       | None => []
       end
  /\ Lifetime.open (calls r.2) = [] /\ Router.activeSpan r.1.1 = None.
Proof.
  intros before r. unfold r. rewrite run_app. fold before.
  cbn [Router.run Router.act]. rewrite bind_run.
  pose proof (run_tracks actions (Router.init, Router.new_router) new_tracer
                tracks_new) as T. fold before in T.
  destruct (teardown_tracks _ _ T) as [(_ & O & _) Hnone].
  split; [|by split].
  cbn [mret M_ret fst snd]. apply teardown_log.
Qed.

(** X3. [setup], then any number of router events, then [teardown] leave
    the router with the registrations it had before [setup]. *)
Theorem router_setup_teardown_unsubscribes
    (st : Router.State) (r : Router.RouterLike)
    (events : list Router.Action) (t : Tracer) :
  Router.handles_below_next r ->
  forallb Router.is_Emit events = true ->
  Router.subscribed
    (Router.run (Router.Setup :: events ++ [Router.Teardown]) (st, r) t).1.2
  = Router.subscribed r.
Proof.
  intros Hr Hev. cbn [Router.run Router.act]. rewrite bind_run.
  cbn [mret M_ret fst snd]. rewrite run_app.
  destruct (emits_keep_router events (Router.setup (st, r)) t Hev)
    as (Hrouter & Hu1 & Hu2).
  destruct (Router.run events (Router.setup (st, r)) t) as [[st1 r1] t1].
  cbn [fst snd] in *. subst r1.
  cbn [Router.run Router.act]. rewrite bind_run.
  unfold Router.teardown. rewrite Hu1, Hu2. destruct r as [n l].
  assert (E : Router.subscribed
                (Router.unsubscribe (Some (S n))
                   (Router.unsubscribe (Some n)
                      (Router.setup (st, {| Router.next_handle := n;
                                            Router.subscribed := l |})).2))
              = l).
  { unfold Router.setup, Router.subscribe, Router.unsubscribe.
    cbn [Router.subscribed Router.next_handle fst snd].
    rewrite !List.filter_app. cbn [List.filter fst].
    rewrite !Nat.eqb_refl, (proj2 (Nat.eqb_neq (S n) n)) by lia.
    cbn [negb List.filter fst]. rewrite Nat.eqb_refl. cbn [negb].
    rewrite !app_nil_r.
    unfold Router.handles_below_next in Hr. cbn in Hr.
    rewrite (filter_handles_below l n n Hr) by lia.
    apply (filter_handles_below l n (S n) Hr). lia. }
  cbn [Router.setup Router.subscribe Router.next_handle Router.subscribed
       Router.unsubBeforeNavigate Router.unsubResolved] in *.
  destruct (Router.activeSpan st1); run_tracer; exact E.
Qed.

Lemma router_setup_teardown_unsubscribes_witness :
  let other := {| Router.next_handle := 3;
                  Router.subscribed := [(1, Router.onResolved)] |} in
  let go := {| Router.type := "onBeforeNavigate";
               Router.fromLocation := None;
               Router.toLocation := {| Router.pathname := "/a" |};
               Router.pathChanged := true |} in
  Router.subscribed
    (Router.run [Router.Setup; Router.Emit Router.onBeforeNavigate go;
                 Router.Teardown]
       (Router.init, other) new_tracer).1.2
  = [(1, Router.onResolved)].
Proof.
  intros other go.
  apply (router_setup_teardown_unsubscribes Router.init other
           [Router.Emit Router.onBeforeNavigate go] new_tracer).
  - repeat constructor.
  - reflexivity.
Defined.

(** ** Data-fetch cache plugin: lifecycles and [teardown] *)

Section QueryLifecycle.
Import Lifetime Query.

Lemma pending_open st t k s :
  Inv st t -> pending st k = Some s ->
  s ∈ started (calls t) k /\ Query.ended (calls t) s = false.
Proof.
  intros I Hk. pose proof (inv_open _ _ I k) as Ho. rewrite Hk in Ho.
  assert (Hin : In s (open_spans (calls t) k)) by (rewrite Ho; by left).
  unfold open_spans in Hin. apply filter_In in Hin as [Hin Hne].
  split; [by apply list_elem_of_In|by apply negb_true_iff].
Qed.

Lemma pending_inj st t k k' s :
  Inv st t -> pending st k = Some s -> pending st k' = Some s -> k = k'.
Proof.
  intros I H1 H2. apply (inv_unique _ _ I s).
  - by apply (pending_open st t k s).
  - by apply (pending_open st t k' s).
Qed.

(** The calls one delivery adds: none, the start of a fresh span, or calls
    on the span of an entry that finish with its [end()]. *)
Lemma deliver_calls ev st t :
  exists cs,
    calls (deliver ev st t).2 = calls t ++ cs
    /\ (cs = []
        \/ (exists name a, cs = [StartSpan (fresh t) name None a])
        \/ (exists k s pre,
              pending st k = Some s /\ cs = pre ++ [EndSpan s None]
              /\ Forall (fun c => target c = s /\ is_endSpan c = false) pre)).
Proof.
  assert (Hclose : forall s status e,
    exists pre,
      emitted (setStatus s ERROR status;; record_if_error s e;;
               endSpan s None) new_tracer = pre ++ [EndSpan s None]
      /\ Forall (fun c => target c = s /\ is_endSpan c = false) pre).
  { intros s status e. destruct e as [[msg|tag]|].
    - by exists [SetStatus s {| code := ERROR; message := status |};
                 RecordException s (Js.ErrorObj msg)]; repeat constructor.
    - by exists [SetStatus s {| code := ERROR; message := status |}];
        repeat constructor.
    - by exists [SetStatus s {| code := ERROR; message := status |}];
        repeat constructor. }
  destruct ev as [event|event]; cbn [deliver].
  - unfold queryListener.
    destruct (q_action event) as [action|];
      [|exists []; split; [by rewrite app_nil_r|by left]].
    destruct (negb (String.eqb (q_type event) "updated"));
      [exists []; split; [by rewrite app_nil_r|by left]|].
    cbv zeta. set (h := queryHash (query event)).
    destruct (String.eqb (action_type action) "fetch" && _).
    { eexists. split; [run_tracer; reflexivity|]. right. left. eauto. }
    destruct (String.eqb (action_type action) "success").
    { destruct (querySpans st !! h) as [s|] eqn:Es;
        [|exists []; split; [by rewrite app_nil_r|by left]].
      eexists. split; [run_tracer; by rewrite <- app_assoc|].
      right. right.
      exists (QKey h), s, [SetStatus s {| code := OK; message := None |}].
      by repeat constructor. }
    destruct (String.eqb (action_type action) "error");
      [|exists []; split; [by rewrite app_nil_r|by left]].
    destruct (querySpans st !! h) as [s|] eqn:Es;
      [|exists []; split; [by rewrite app_nil_r|by left]].
    destruct (Hclose s (Some (error_message (error action))) (error action))
      as (pre & Hpre & Hall).
    exists (pre ++ [EndSpan s None]). split.
    + rewrite <- Hpre. destruct (error action) as [[msg|tag]|];
        run_tracer; cbn; by rewrite <- ?app_assoc.
    + right. right. by exists (QKey h), s, pre.
  - unfold mutationListener.
    destruct (m_action event) as [action|];
      [|exists []; split; [by rewrite app_nil_r|by left]].
    destruct (mutation event) as [mu|];
      [|exists []; split; [by rewrite app_nil_r|by left]].
    destruct (negb (String.eqb (m_type event) "updated"));
      [exists []; split; [by rewrite app_nil_r|by left]|].
    cbv zeta. set (i := mutationId mu).
    destruct (String.eqb (action_type action) "pending" && _).
    { eexists. split; [run_tracer; reflexivity|]. right. left. eauto. }
    destruct (String.eqb (action_type action) "success").
    { destruct (mutationSpans st !! i) as [s|] eqn:Es;
        [|exists []; split; [by rewrite app_nil_r|by left]].
      eexists. split; [run_tracer; by rewrite <- app_assoc|].
      right. right.
      exists (MKey i), s, [SetStatus s {| code := OK; message := None |}].
      by repeat constructor. }
    destruct (String.eqb (action_type action) "error");
      [|exists []; split; [by rewrite app_nil_r|by left]].
    destruct (mutationSpans st !! i) as [s|] eqn:Es;
      [|exists []; split; [by rewrite app_nil_r|by left]].
    destruct (Hclose s (Some (error_message (error action))) (error action))
      as (pre & Hpre & Hall).
    exists (pre ++ [EndSpan s None]). split.
    + rewrite <- Hpre. destruct (error action) as [[msg|tag]|];
        run_tracer; cbn; by rewrite <- ?app_assoc.
    + right. right. by exists (MKey i), s, pre.
Qed.

Lemma deliver_clean ev st t :
  Inv st t -> no_use_after_end (calls t) = true ->
  no_use_after_end (calls (deliver ev st t).2) = true.
Proof.
  intros I C. destruct (deliver_calls ev st t) as (cs & -> & Hcs).
  rewrite no_use_after_end_app, C. cbn [andb].
  destruct Hcs as [->|[(name & a & ->)|(k & s & pre & Hk & -> & Hpre)]].
  - done.
  - cbn. by rewrite (fresh_not_ended st t I).
  - apply unused_after_end_closing; [|done].
    by apply (pending_open st t k s).
Qed.

Lemma run_clean evs st t :
  Inv st t -> no_use_after_end (calls t) = true ->
  no_use_after_end (calls (run evs st t).2) = true.
Proof.
  revert st t. induction evs as [|ev evs IH]; intros st t I C; [done|].
  cbn [run]. rewrite bind_run. apply IH.
  - apply (step_inv st t); [done|apply deliver_step].
  - by apply deliver_clean.
Qed.

Lemma end_all_calls spans t :
  calls (end_all spans t).2 = calls t ++ map (fun s => EndSpan s None) spans
  /\ fresh (end_all spans t).2 = fresh t.
Proof.
  revert t. induction spans as [|s spans IH]; intros t; cbn [end_all map].
  - by rewrite app_nil_r.
  - rewrite bind_run. destruct (IH (endSpan s None t).2) as [-> ->].
    run_tracer. by rewrite <- app_assoc.
Qed.

Lemma ended_map_end spans s :
  Query.ended (map (fun s => EndSpan s None) spans) s = true <-> In s spans.
Proof.
  induction spans as [|s' spans IH]; cbn; [done|].
  rewrite orb_true_iff, IH, Nat.eqb_eq. split; intros [H|H]; auto.
Qed.

Lemma unused_after_end_all seen spans :
  List.NoDup spans ->
  (forall s, In s spans -> Query.ended seen s = false) ->
  unused_after_end seen (map (fun s => EndSpan s None) spans) = true.
Proof.
  revert seen. induction spans as [|s spans IH]; intros seen Hnd Hs; [done|].
  apply List.NoDup_cons_iff in Hnd as [Hnotin Hnd]. cbn.
  rewrite Hs by by left. cbn. apply IH; [done|].
  intros s' Hin. rewrite ended_app, Hs by by right. cbn.
  rewrite orb_false_r. apply Nat.eqb_neq. intros ->. done.
Qed.

Lemma teardown_calls queryValues mutationValues st t :
  calls (teardown queryValues mutationValues st t).2
  = calls t ++ map (fun s => EndSpan s None) (queryValues ++ mutationValues)
  /\ (teardown queryValues mutationValues st t).1 = init.
Proof.
  unfold teardown. rewrite !bind_run. cbn [mret M_ret fst snd].
  destruct (end_all_calls mutationValues (end_all queryValues t).2) as [-> _].
  destruct (end_all_calls queryValues t) as [-> _].
  by rewrite map_app, <- app_assoc.
Qed.

(** The values a table enumerates are the spans pending for its keys. *)
Lemma values_pending queryValues mutationValues st s :
  values_in_order queryValues mutationValues st ->
  In s (queryValues ++ mutationValues) <-> exists k, pending st k = Some s.
Proof.
  intros [Hq Hm]. rewrite in_app_iff, <- !list_elem_of_In, Hq, Hm.
  rewrite !list_elem_of_fmap. split.
  - intros [([h s'] & -> & Hin)|([i s'] & -> & Hin)];
      apply elem_of_map_to_list in Hin.
    + by exists (QKey h).
    + by exists (MKey i).
  - intros ([h|i] & Hk); cbn in Hk; [left; exists (h, s)|right; exists (i, s)];
      by rewrite elem_of_map_to_list.
Qed.

Lemma values_NoDup queryValues mutationValues st t :
  Inv st t -> values_in_order queryValues mutationValues st ->
  List.NoDup (queryValues ++ mutationValues).
Proof.
  intros I [Hq Hm]. apply NoDup_ListNoDup. rewrite Hq, Hm.
  apply NoDup_app. split; [|split].
  - apply NoDup_fmap_2_strong; [|apply NoDup_map_to_list].
    intros [h s] [h' s'] H1%elem_of_map_to_list H2%elem_of_map_to_list E.
    cbn in E. subst s'.
    by injection (pending_inj st t (QKey h) (QKey h') s I H1 H2) as ->.
  - intros s ([h s'] & -> & H1%elem_of_map_to_list)%list_elem_of_fmap
             ([i s''] & E & H2%elem_of_map_to_list)%list_elem_of_fmap.
    cbn in E. subst s''.
    by pose proof (pending_inj st t (QKey h) (MKey i) s' I H1 H2).
  - apply NoDup_fmap_2_strong; [|apply NoDup_map_to_list].
    intros [i s] [i' s'] H1%elem_of_map_to_list H2%elem_of_map_to_list E.
    cbn in E. subst s'.
    by injection (pending_inj st t (MKey i) (MKey i') s I H1 H2) as ->.
Qed.

End QueryLifecycle.

(** X4. A start event for a key without entry followed by the terminal
    event for that key ('success', or 'error' with any value) makes one
    span: it is started, gets its status (OK, or ERROR with the message and,
    for an [Error], the recorded exception), is ended, and the plugin's
    tables are again what they were before the start.  Queries ('fetch')
    and mutations ('pending') alike. *)
Theorem query_start_then_terminal_round_trip
    (st : Query.State) (t : Tracer) (q : Query.QueryLike)
    (mu : Query.MutationLike) (failure : option (option Js.Value)) :
  let action ty e := Some {| Query.action_type := ty; Query.error := e |} in
  let terminal :=
    match failure with
    | None => action "success" None
    | Some e => action "error" e
    end in
  let closing s :=
    match failure with
    | None => [SetStatus s {| code := OK; message := None |}]
    | Some e =>
        SetStatus s {| code := ERROR;
                       message := Some (Query.error_message e) |}
        :: match e with
           | Some (Js.ErrorObj msg) => [RecordException s (Js.ErrorObj msg)]
           | _ => []
           end
    end ++ [EndSpan s None] in
  (Query.querySpans st !! Query.queryHash q = None ->
   let ev a := {| Query.q_type := "updated"; Query.query := q;
                  Query.q_action := a |} in
   let m := st1 ← Query.queryListener (ev (action "fetch" None)) st;
            Query.queryListener (ev terminal) st1 in
   emitted m t
   = StartSpan (fresh t)
       ("query " +:+ Query.JSON_stringify (Query.queryKey q)) None
       [("query.hash", AStr (Query.queryHash q));
        ("query.key", AStr (Query.JSON_stringify (Query.queryKey q)))]
     :: closing (fresh t)
   /\ (m t).1 = st)
  /\ (Query.mutationSpans st !! Query.mutationId mu = None ->
      let ev a := {| Query.m_type := "updated"; Query.mutation := Some mu;
                     Query.m_action := a |} in
      let m := st1 ← Query.mutationListener (ev (action "pending" None)) st;
               Query.mutationListener (ev terminal) st1 in
      let key := Query.mutationKey (Query.options mu) in
      emitted m t
      = StartSpan (fresh t)
          ("mutation " +:+ match key with
                           | Some k => Query.JSON_stringify k
                           | None => pretty (Query.mutationId mu)
                           end) None
          [("mutation.id", AInt (Query.mutationId mu));
           ("mutation.key", AStr match key with
                                 | Some k => Query.JSON_stringify k
                                 | None => ""
                                 end)]
        :: closing (fresh t)
      /\ (m t).1 = st).
Proof.
  intros action terminal closing. destruct st as [qs ms]. split.
  - intros Hnone ev m. unfold m, Query.queryListener, terminal, closing.
    cbn [Query.querySpans] in Hnone. rewrite !bind_run.
    destruct failure as [[[msg|tag]|]|];
      cbn [ev action Query.q_action Query.q_type Query.query Query.action_type
           Query.error String.eqb Ascii.eqb Bool.eqb negb andb
           Query.querySpans];
      rewrite Hnone; cbn [bool_decide decide_rel negb];
      (rewrite bool_decide_eq_false_2 by (intros [? ?]; discriminate));
      cbn [negb]; run_tracer; cbn [Query.set_querySpans Query.querySpans];
      rewrite lookup_insert_eq; run_tracer;
      cbn [Query.set_querySpans Query.querySpans Query.mutationSpans
           Query.error_message Query.record_if_error];
      run_tracer;
      (split; [rewrite <- ?app_assoc; cbn [app]; by rewrite drop_app_length
              |by rewrite delete_insert_id]).
  - intros Hnone ev m. unfold m, Query.mutationListener, terminal, closing.
    cbn [Query.mutationSpans] in Hnone. rewrite !bind_run. cbv zeta.
    destruct failure as [[[msg|tag]|]|];
      cbn [ev action Query.m_action Query.m_type Query.mutation
           Query.action_type Query.error String.eqb Ascii.eqb Bool.eqb negb
           andb Query.mutationSpans];
      rewrite Hnone;
      (rewrite bool_decide_eq_false_2 by (intros [? ?]; discriminate));
      cbn [negb]; run_tracer; cbn [Query.set_mutationSpans Query.mutationSpans];
      rewrite lookup_insert_eq; run_tracer;
      cbn [Query.set_mutationSpans Query.querySpans Query.mutationSpans
           Query.error_message Query.record_if_error];
      run_tracer;
      (split; [rewrite <- ?app_assoc; cbn [app]; by rewrite drop_app_length
              |by rewrite delete_insert_id]).
Qed.

Lemma query_start_then_terminal_round_trip_witness :
  let q := {| Query.queryKey := {| Query.JSON_stringify := "[1]" |};
              Query.queryHash := "q1" |} in
  let ev ty e :=
    Query.QueryEvent
      {| Query.q_type := "updated"; Query.query := q;
         Query.q_action := Some {| Query.action_type := ty;
                                   Query.error := e |} |} in
  let boom := Some (Js.ErrorObj "boom") in
  let r := Query.run [ev "fetch" None; ev "error" boom] Query.init new_tracer in
  calls r.2
  = [ StartSpan 0 "query [1]" None
        [("query.hash", AStr "q1"); ("query.key", AStr "[1]")];
      SetStatus 0 {| code := ERROR; message := Some "boom" |};
      RecordException 0 (Js.ErrorObj "boom");
      EndSpan 0 None ]
  /\ r.1 = Query.init.
Proof.
  intros q ev boom r.
  destruct (proj1 (query_start_then_terminal_round_trip
                     Query.init new_tracer q
                     {| Query.mutationId := 0;
                        Query.options := {| Query.mutationKey := None |} |}
                     (Some boom))
              eq_refl) as [Hcalls Hst].
  split; [exact Hcalls|exact Hst].
Defined.

(** X5. The listeners ignore, without a call on the tracer and without a
    change of their tables: an event whose type is not "updated", an event
    without action, a mutation event without mutation, an action whose type
    is none of the recognised ones, and a 'success' or 'error' for a key
    that has no entry. *)
Theorem query_unmatched_events_are_ignored (st : Query.State) (t : Tracer) :
  (forall event,
      Query.q_type event <> "updated"
      \/ Query.q_action event = None
      \/ (exists a, Query.q_action event = Some a
                    /\ Query.action_type a <> "fetch"
                    /\ (Query.querySpans st !! Query.queryHash (Query.query event)
                        = None
                        \/ (Query.action_type a <> "success"
                            /\ Query.action_type a <> "error"))) ->
      Query.queryListener event st t = (st, t))
  /\ (forall event,
      Query.m_type event <> "updated"
      \/ Query.m_action event = None
      \/ Query.mutation event = None
      \/ (exists a mu, Query.m_action event = Some a
                       /\ Query.mutation event = Some mu
                       /\ Query.action_type a <> "pending"
                       /\ (Query.mutationSpans st !! Query.mutationId mu = None
                           \/ (Query.action_type a <> "success"
                               /\ Query.action_type a <> "error"))) ->
      Query.mutationListener event st t = (st, t)).
Proof.
  split.
  - intros event H. unfold Query.queryListener.
    destruct (Query.q_action event) as [action|]; [|done].
    destruct (String.eqb_spec (Query.q_type event) "updated") as [Heq|Hty];
      cbn [negb]; [|done].
    destruct H as [H|[H|(a & [= <-] & Hfetch & H)]]; [done..|].
    apply String.eqb_neq in Hfetch. rewrite Hfetch. cbn [andb].
    destruct H as [->|[Hs%String.eqb_neq He%String.eqb_neq]].
    + by destruct (String.eqb (Query.action_type action) "success"),
                  (String.eqb (Query.action_type action) "error").
    + by rewrite Hs, He.
  - intros event H. unfold Query.mutationListener.
    destruct (Query.m_action event) as [action|]; [|done].
    destruct (Query.mutation event) as [mu|]; [|done].
    destruct (String.eqb_spec (Query.m_type event) "updated") as [Heq|Hty];
      cbn [negb]; [|done].
    destruct H as [H|[H|[H|(a & mu' & [= <-] & [= <-] & Hpend & H)]]];
      [done..|].
    apply String.eqb_neq in Hpend. rewrite Hpend. cbn [andb].
    destruct H as [->|[Hs%String.eqb_neq He%String.eqb_neq]].
    + by destruct (String.eqb (Query.action_type action) "success"),
                  (String.eqb (Query.action_type action) "error").
    + by rewrite Hs, He.
Qed.

Lemma query_unmatched_events_are_ignored_witness :
  let q := {| Query.queryKey := {| Query.JSON_stringify := "[1]" |};
              Query.queryHash := "q1" |} in
  let late :=
    {| Query.q_type := "updated"; Query.query := q;
       Query.q_action := Some {| Query.action_type := "success";
                                 Query.error := None |} |} in
  Query.queryListener late Query.init new_tracer = (Query.init, new_tracer).
Proof.
  intros q late.
  apply (proj1 (query_unmatched_events_are_ignored Query.init new_tracer)).
  right. right. eexists. split; [reflexivity|]. split; [discriminate|].
  left. reflexivity.
Defined.

Section QueryTeardownFacts.
Import Lifetime Query.

Lemma end_calls_start_nothing spans :
  Forall (fun c => key_of c = None) (map (fun s => EndSpan s None) spans).
Proof. induction spans; by constructor. Qed.

End QueryTeardownFacts.

(** X6. [teardown] after any history of cache events: it calls [end()]
    once on every span that is still in a table and nothing else (no
    status is set), both tables are empty afterwards, and no key is left
    with an open span. *)
Theorem query_teardown_ends_every_pending_span
    (evs : list Query.CacheEvent) (queryValues mutationValues : list Span) :
  let r := Query.run evs Query.init new_tracer in
  Query.values_in_order queryValues mutationValues r.1 ->
  let m := Query.teardown queryValues mutationValues r.1 in
  emitted m r.2 = map (fun s => EndSpan s None) (queryValues ++ mutationValues)
  /\ (forall s, In s (queryValues ++ mutationValues)
                <-> exists k, Query.pending r.1 k = Some s)
  /\ (m r.2).1 = Query.init
  /\ forall k, Query.open_spans (calls (m r.2).2) k = [].
Proof.
  intros r Hvalues m.
  pose proof (run_inv evs _ _ init_inv) as I. fold r in I.
  destruct (teardown_calls queryValues mutationValues r.1 r.2) as [Hc Hst].
  fold m in Hc, Hst.
  split; [by apply emitted_app|]. split; [intros s; by apply values_pending|].
  split; [exact Hst|]. intros k.
  rewrite Hc, open_spans_app_other by apply end_calls_start_nothing.
  rewrite (Query.inv_open _ _ I).
  destruct (Query.pending r.1 k) as [s|] eqn:Hk; [|done]. cbn.
  assert (Hin : In s (queryValues ++ mutationValues)).
  { apply (values_pending _ _ r.1 s Hvalues). by exists k. }
  apply ended_map_end in Hin. by rewrite Hin.
Qed.

Lemma query_teardown_ends_every_pending_span_witness :
  let ev h :=
    Query.QueryEvent
      {| Query.q_type := "updated";
         Query.query := {| Query.queryKey := {| Query.JSON_stringify := h |};
                           Query.queryHash := h |};
         Query.q_action := Some {| Query.action_type := "fetch";
                                   Query.error := None |} |} in
  let r := Query.run [ev "b"; ev "a"] Query.init new_tracer in
  emitted (Query.teardown [0; 1] [] r.1) r.2 = [EndSpan 0 None; EndSpan 1 None]
  /\ forall k,
      Query.open_spans (calls (Query.teardown [0; 1] [] r.1 r.2).2) k = [].
Proof.
  intros ev r.
  assert (H : Query.values_in_order [0; 1] [] r.1).
  { split; vm_compute.
    - apply Permutation_swap.
    - apply Permutation_refl. }
  destruct (query_teardown_ends_every_pending_span [ev "b"; ev "a"] [0; 1] [] H)
    as (Hcalls & _ & _ & Hopen).
  split; [exact Hcalls|exact Hopen].
Defined.

(** X7. Over any history of cache events, and through the [teardown] that
    may follow it, the plugin never makes a call on a span after that
    span's [end()]; in particular no span is ended twice. *)
Theorem query_never_uses_an_ended_span
    (evs : list Query.CacheEvent) (queryValues mutationValues : list Span) :
  let r := Query.run evs Query.init new_tracer in
  (Lifetime.no_use_after_end (calls r.2) = true
   /\ forall s, Lifetime.end_count (calls r.2) s <= 1)
  /\ (Query.values_in_order queryValues mutationValues r.1 ->
      let log := calls (Query.teardown queryValues mutationValues r.1 r.2).2 in
      Lifetime.no_use_after_end log = true
      /\ forall s, Lifetime.end_count log s <= 1).
Proof.
  intros r.
  pose proof (run_inv evs _ _ init_inv) as I. fold r in I.
  assert (C : Lifetime.no_use_after_end (calls r.2) = true)
    by (apply run_clean; [apply init_inv|done]).
  split; [split; [exact C|intros s; by apply ended_at_most_once]|].
  intros Hvalues log.
  assert (C' : Lifetime.no_use_after_end log = true).
  { unfold log.
    destruct (teardown_calls queryValues mutationValues r.1 r.2) as [-> _].
    rewrite no_use_after_end_app, C. cbn [andb].
    apply unused_after_end_all.
    - by apply (values_NoDup _ _ r.1 r.2).
    - intros s (k & Hk)%(values_pending _ _ r.1 s Hvalues).
      by apply (pending_open r.1 r.2 k s). }
  split; [exact C'|intros s; by apply ended_at_most_once].
Qed.

Lemma query_never_uses_an_ended_span_witness :
  let ev ty :=
    Query.QueryEvent
      {| Query.q_type := "updated";
         Query.query := {| Query.queryKey := {| Query.JSON_stringify := "[1]" |};
                           Query.queryHash := "q1" |};
         Query.q_action := Some {| Query.action_type := ty;
                                   Query.error := None |} |} in
  let r := Query.run [ev "fetch"; ev "success"; ev "fetch"]
             Query.init new_tracer in
  Lifetime.no_use_after_end (calls (Query.teardown [1] [] r.1 r.2).2) = true.
Proof.
  intros ev r.
  assert (H : Query.values_in_order [1] [] r.1).
  { split; vm_compute; apply Permutation_refl. }
  exact (proj1 (proj2 (query_never_uses_an_ended_span
                         [ev "fetch"; ev "success"; ev "fetch"] [1] []) H)).
Defined.

(** ** HTTP plugin: the wrappers as a whole *)

Section FetchFacts.
Import Fetch.




End FetchFacts.

(** X8. An instrumented [fetch] (the URL resolves and matches no
    exclusion pattern) starts exactly one span, as its first call on the
    tracer.  When the headers of the call can be built, then however the
    real call ends, the last call on the tracer ends that span, every call
    in between is made on that span and is neither a start nor an end, and
    exactly one of them sets the status.  When [new Headers] or
    [headers.set] throws, which happens after the span was started and
    outside the [try] block, the span is never ended: its start is the
    only call on the tracer, the real [fetch] is not called, and the
    promise is rejected with the exception, an [Error]. *)
Theorem fetch_span_ends_unless_headers_throw
    (config : Fetch.FetchPluginConfig)
    (URL_href : string -> Fetch.Completion string)
    (carrier : list (string * string))
    (originalFetch : Fetch.FetchFn) (input : Fetch.RequestInfo)
    (init : option Fetch.RequestInit) (url : string) (t : Tracer) :
  Fetch.resolveUrl URL_href input = Fetch.Normal url ->
  Fetch.matchesAny url (Fetch.ignoreUrls config) = false ->
  let m := Fetch.patchedFetch config URL_href carrier originalFetch input init in
  let method := Fetch.resolveMethod input init in
  let start :=
    StartSpan (fresh t) ("HTTP " +:+ method) None
      [("http.method", AStr method); ("http.url", AStr url)] in
  fresh (m t).2 = S (fresh t)
  /\ match Fetch.outgoing_headers config carrier url init with
     | Fetch.Normal h =>
         exists mid,
           emitted m t = start :: mid ++ [EndSpan (fresh t) None]
           /\ Forall (fun c => target c = fresh t
                               /\ Lifetime.is_startSpan c = false
                               /\ Lifetime.is_endSpan c = false) mid
           /\ length (List.filter is_setStatus mid) = 1
     | Fetch.Throw e =>
         emitted m t = [start]
         /\ Lifetime.open (emitted m t) = [fresh t]
         /\ Fetch.passed (m t).1 = None
         /\ Fetch.settled (m t).1 = Fetch.Throw e
         /\ Js.instanceofError e = true
     end.
Proof.
  intros Hurl Hign m method start. unfold m, Fetch.patchedFetch.
  rewrite Hurl, Hign. fold method.
  destruct (Fetch.outgoing_headers config carrier url init) as [h|e] eqn:Hh.
  - destruct (originalFetch input (Some (Fetch.with_headers init h)))
      as [response|error] eqn:E.
    + destruct (Fetch.ok response) eqn:Hok.
      * split; [reflexivity|].
        eexists [_; _]. split; [|split].
        -- apply emitted_app. run_tracer.
           rewrite <- !app_assoc. reflexivity.
        -- by repeat constructor.
        -- reflexivity.
      * split; [reflexivity|].
        eexists [_; _]. split; [|split].
        -- apply emitted_app. run_tracer.
           rewrite <- !app_assoc. reflexivity.
        -- by repeat constructor.
        -- reflexivity.
    + destruct error as [msg|tag].
      * split; [reflexivity|].
        eexists [_; _]. split; [|split].
        -- apply emitted_app. run_tracer.
           cbn [Js.instanceofError]. run_tracer.
           rewrite <- !app_assoc. reflexivity.
        -- by repeat constructor.
        -- reflexivity.
      * split; [reflexivity|].
        eexists [_]. split; [|split].
        -- apply emitted_app. run_tracer.
           cbn [Js.instanceofError]. run_tracer.
           rewrite <- !app_assoc. reflexivity.
        -- by repeat constructor.
        -- reflexivity.
  - assert (Hcalls : emitted
                       (span ← startSpan ("HTTP " +:+ method) None
                                 [("http.method", AStr method);
                                  ("http.url", AStr url)];
                        mret {| Fetch.passed := None;
                                Fetch.settled := Fetch.Throw e |}) t
                     = [start]) by by apply emitted_app.
    split; [reflexivity|]. rewrite Hcalls.
    split; [reflexivity|]. split.
    + reflexivity.
    + split; [reflexivity|]. split; [reflexivity|].
      by apply (outgoing_headers_throws_Error _ _ _ _ _ Hh).
Qed.

Lemma fetch_span_ends_unless_headers_throw_witness :
  let config := {| Fetch.cfg_ignoreUrls := None;
                   Fetch.cfg_propagateToUrls := None |} in
  let input := Fetch.InputString "https://api.example/items" in
  let bad := {| Fetch.method := None;
                Fetch.headers := Some [("X Trace", "1")];
                Fetch.body := None |} in
  let failing := fun (_ : Fetch.RequestInfo) (_ : option Fetch.RequestInit) =>
                   @Fetch.Throw Fetch.Response (Js.NonError "offline") in
  (exists mid,
      emitted (Fetch.patchedFetch config Fetch.Normal [] failing input None)
        new_tracer
      = StartSpan 0 "HTTP GET" None
          [("http.method", AStr "GET");
           ("http.url", AStr "https://api.example/items")]
        :: mid ++ [EndSpan 0 None]
      /\ length (List.filter is_setStatus mid) = 1)
  /\ emitted (Fetch.patchedFetch config Fetch.Normal [] failing input (Some bad))
       new_tracer
     = [ StartSpan 0 "HTTP GET" None
           [("http.method", AStr "GET");
            ("http.url", AStr "https://api.example/items")] ]
  /\ Fetch.passed
       (Fetch.patchedFetch config Fetch.Normal [] failing input (Some bad)
          new_tracer).1
     = None.
Proof.
  intros config input bad failing. split; [|split].
  - destruct (proj2 (fetch_span_ends_unless_headers_throw config Fetch.Normal []
                       failing input None "https://api.example/items"
                       new_tracer eq_refl eq_refl))
      as (mid & H & _ & Hone).
    exists mid. by split.
  - exact (proj1 (proj2 (fetch_span_ends_unless_headers_throw config
                           Fetch.Normal [] failing input (Some bad)
                           "https://api.example/items" new_tracer
                           eq_refl eq_refl))).
  - exact (proj1 (proj2 (proj2 (proj2 (fetch_span_ends_unless_headers_throw
                                         config Fetch.Normal [] failing input
                                         (Some bad)
                                         "https://api.example/items"
                                         new_tracer eq_refl eq_refl))))).
Defined.

(** X9. What the patched [fetch] hands to the real one.  When the URL
    cannot be resolved it calls neither the real [fetch] nor the tracer and
    rejects with the exception of the URL constructor.  On the exclusion
    path it passes its own arguments on.  On the instrumented path it
    calls the real [fetch] only if the headers can be built, and then once,
    on the caller's own input and with the caller's method and body; the
    promise settles exactly as that call does.  The init of that call
    always has a [headers] member, built from the caller's init and the
    carrier, never from the input: the platform lets it replace the headers
    of a [Request] input, so that these are not sent.  With no headers in
    the caller's init and no propagation, a [Request] goes out with an
    empty header list, whatever headers it was made with. *)
Theorem fetch_wrapper_replaces_request_headers
    (config : Fetch.FetchPluginConfig)
    (URL_href : string -> Fetch.Completion string)
    (carrier : list (string * string))
    (originalFetch : Fetch.FetchFn) (input : Fetch.RequestInfo)
    (init : option Fetch.RequestInit) (t : Tracer) :
  let r := Fetch.patchedFetch config URL_href carrier originalFetch input init t in
  match Fetch.resolveUrl URL_href input with
  | Fetch.Throw e =>
      Fetch.passed r.1 = None /\ Fetch.settled r.1 = Fetch.Throw e /\ r.2 = t
  | Fetch.Normal url =>
      if Fetch.matchesAny url (Fetch.ignoreUrls config)
      then Fetch.passed r.1 = Some (input, init)
           /\ Fetch.settled r.1 = originalFetch input init
      else
        match Fetch.outgoing_headers config carrier url init with
        | Fetch.Throw e =>
            Fetch.passed r.1 = None /\ Fetch.settled r.1 = Fetch.Throw e
        | Fetch.Normal h =>
            exists i,
              Fetch.passed r.1 = Some (input, Some i)
              /\ Fetch.settled r.1 = originalFetch input (Some i)
              /\ Fetch.method i = init ≫= Fetch.method
              /\ Fetch.body i = init ≫= Fetch.body
              /\ Fetch.headers i = Some h
              /\ Fetch.request_headers_from input (Some i) = Fetch.FromInit h
              /\ (init ≫= Fetch.headers = None ->
                  Fetch.matchesAny url (Fetch.propagateToUrls config) = false ->
                  h = []
                  /\ forall req,
                      input = Fetch.InputRequest req ->
                      Fetch.request_headers_from input init
                      = Fetch.FromRequest (Fetch.request_headers req))
        end
  end.
Proof.
  intros r. unfold r, Fetch.patchedFetch.
  destruct (Fetch.resolveUrl URL_href input) as [url|e]; [|done].
  destruct (Fetch.matchesAny url (Fetch.ignoreUrls config)); [done|].
  destruct (Fetch.outgoing_headers config carrier url init) as [h|e] eqn:Hh;
    [|done].
  exists (Fetch.with_headers init h). run_tracer.
  assert (Hlast :
    init ≫= Fetch.headers = None ->
    Fetch.matchesAny url (Fetch.propagateToUrls config) = false ->
    h = []
    /\ forall req,
        input = Fetch.InputRequest req ->
        Fetch.request_headers_from input init
        = Fetch.FromRequest (Fetch.request_headers req)).
  { intros Hnone Hprop. unfold Fetch.outgoing_headers in Hh.
    rewrite Hnone, Hprop in Hh. injection Hh as <-.
    split; [done|]. intros req ->.
    unfold Fetch.request_headers_from. by rewrite Hnone. }
  destruct (originalFetch input _) as [response|error] eqn:E.
  - by destruct (Fetch.ok response).
  - by destruct error.
Qed.

Lemma fetch_wrapper_replaces_request_headers_witness :
  let config := {| Fetch.cfg_ignoreUrls := None;
                   Fetch.cfg_propagateToUrls := None |} in
  let request :=
    Fetch.InputRequest
      {| Fetch.url := "https://api.example/items";
         Fetch.request_method := "GET";
         Fetch.request_headers := [("authorization", "Bearer abc")] |} in
  let response := {| Fetch.status := 200; Fetch.response_headers := [] |} in
  exists i,
    Fetch.passed
      (Fetch.patchedFetch config Fetch.Normal []
         (fun _ _ => Fetch.Normal response) request None new_tracer).1
    = Some (request, Some i)
    /\ Fetch.request_headers_from request (Some i) = Fetch.FromInit []
    /\ Fetch.request_headers_from request None
       = Fetch.FromRequest [("authorization", "Bearer abc")].
Proof.
  intros config request response.
  destruct (fetch_wrapper_replaces_request_headers config Fetch.Normal []
              (fun _ _ => Fetch.Normal response) request None new_tracer)
    as (i & Hp & _ & _ & _ & _ & Hfrom & Hlost).
  exists i. split; [exact Hp|]. split; [exact Hfrom|].
  exact (proj2 (Hlost eq_refl eq_refl) _ eq_refl).
Defined.





(** X13. A second [setup] without a [teardown] in between overwrites the
    snapshots with the plugin's own wrappers: the one [teardown] that
    follows clears the snapshots but leaves [fetch], [open] and [send]
    wrapped, and no further [teardown] changes that. *)
Theorem fetch_second_setup_loses_originals (g : Fetch.Globals) :
  let w := Fetch.teardown (Fetch.setup (Fetch.setup (Fetch.init, g))) in
  w = (Fetch.init,
       {| Fetch.fetch := Fetch.PatchedFetch;
          Fetch.XHR_open := Fetch.PatchedOpen;
          Fetch.XHR_send := Fetch.PatchedSend |})
  /\ forall k, Nat.iter k Fetch.teardown w = w.
Proof.
  intros w. assert (E : w = (Fetch.init,
       {| Fetch.fetch := Fetch.PatchedFetch;
          Fetch.XHR_open := Fetch.PatchedOpen;
          Fetch.XHR_send := Fetch.PatchedSend |})) by by destruct g.
  split; [exact E|]. clearbody w. subst w.
  intros k. induction k as [|k IH]; [done|]. by rewrite Nat.iter_succ, IH.
Qed.

(** ** Page-load plugin: paint and largest-contentful-paint spans *)

Section PaintFacts.
Import DocumentLoad.

(** The two calls one paint entry gives rise to. *)
Lemma emitPaintSpans_calls_exact href entries navigationStart t :
  let pair i entry :=
    [ StartSpan (fresh t + i) (name entry) (Some navigationStart)
        [("document.url", AStr href);
         ("paint.duration_ms", ANum (entry_startTime entry))];
      EndSpan (fresh t + i) (Some (entry_startTime entry)) ] in
  calls (emitPaintSpans href entries navigationStart t).2
  = calls t ++ concat (imap pair (List.filter is_paint_entry entries))
  /\ fresh (emitPaintSpans href entries navigationStart t).2
     = fresh t + length (List.filter is_paint_entry entries).
Proof.
  revert t. induction entries as [|entry rest IH]; intros t pair.
  - cbn. by rewrite app_nil_r, Nat.add_0_r.
  - cbn [emitPaintSpans List.filter]. rewrite bind_run.
    replace (negb (String.eqb (name entry) "first-paint")
             && negb (String.eqb (name entry) "first-contentful-paint"))
      with (negb (is_paint_entry entry))
      by (unfold is_paint_entry; apply negb_orb).
    destruct (is_paint_entry entry); cbn [negb].
    + run_tracer.
      match goal with |- context [emitPaintSpans _ _ _ ?t1] =>
        destruct (IH t1) as [-> ->] end.
      cbn [calls fresh imap concat length]. split; [|lia].
      rewrite <- !app_assoc. f_equal. unfold pair.
      rewrite Nat.add_0_r. cbn [app]. do 3 f_equal.
      apply imap_ext. intros i e _. cbn. by rewrite Nat.add_succ_r.
    + cbn [mret M_ret fst snd]. apply IH.
Qed.

Lemma setup_state b t :
  (setup b init t).1
  = {| window_listeners :=
         if String.eqb (readyState b) "complete" then []
         else [ {| event := "load"; once := true |} ];
       paintObserver :=
         if (0 <? length (paint_entries b))%nat then None
         else if PerformanceObserver_defined b && observable b "paint"
              then Some {| navigationStart :=
                             match navigation_entries b with
                             | n :: _ => startTime n
                             | [] => 0%float
                             end;
                           observing := true |}
              else None;
       observer :=
         if PerformanceObserver_defined b
         then Some {| navigationStart :=
                        match navigation_entries b with
                        | n :: _ => startTime n
                        | [] => 0%float
                        end;
                      observing := observable b "largest-contentful-paint" |}
         else None |}.
Proof.
  unfold setup. rewrite !bind_run. cbn [mret M_ret fst snd init
    window_listeners paintObserver observer app].
  by destruct (String.eqb (readyState b) "complete").
Qed.

End PaintFacts.

(** X14. [emitPaintSpans] turns the entries named "first-paint" or
    "first-contentful-paint" into one span each, in their order, and skips
    every other entry: each span is named after its entry, starts at
    [navigationStart], carries the entry's start time as duration, and is
    ended at the entry's start time right after it was started. *)
Theorem paint_spans_one_per_paint_entry
    (href : string) (entries : list DocumentLoad.PerformanceEntry)
    (navigationStart : float) (t : Tracer) :
  emitted (DocumentLoad.emitPaintSpans href entries navigationStart) t
  = concat
      (imap (fun i entry =>
               [ StartSpan (fresh t + i) (DocumentLoad.name entry)
                   (Some navigationStart)
                   [("document.url", AStr href);
                    ("paint.duration_ms",
                     ANum (DocumentLoad.entry_startTime entry))];
                 EndSpan (fresh t + i)
                   (Some (DocumentLoad.entry_startTime entry)) ])
            (List.filter DocumentLoad.is_paint_entry entries)).
Proof.
  apply emitted_app.
  by destruct (emitPaintSpans_calls_exact href entries navigationStart t)
    as [-> _].
Qed.

(** X15. Paint spans are emitted once.  When the timeline already holds
    paint entries at [setup], [setup] itself emits their spans (after the
    navigation span, if any) and registers no paint observer, so that an
    observer callback emits nothing.  When it holds none and the observer
    can be set up, the first callback emits the spans of its entries, with
    the [navigationStart] that [setup] captured, and disconnects the
    observer.  In every case a callback that follows another one emits
    nothing and changes nothing. *)
Theorem paint_spans_are_emitted_once
    (b : DocumentLoad.Browser) (t : Tracer) :
  let st := (DocumentLoad.setup b DocumentLoad.init t).1 in
  let navigationStart :=
    match DocumentLoad.navigation_entries b with
    | n :: _ => DocumentLoad.startTime n
    | [] => 0%float
    end in
  let spans href entries first :=
    concat
      (imap (fun i entry =>
               [ StartSpan (first + i) (DocumentLoad.name entry)
                   (Some navigationStart)
                   [("document.url", AStr href);
                    ("paint.duration_ms",
                     ANum (DocumentLoad.entry_startTime entry))];
                 EndSpan (first + i)
                   (Some (DocumentLoad.entry_startTime entry)) ])
            (List.filter DocumentLoad.is_paint_entry entries)) in
  (DocumentLoad.paint_entries b <> [] ->
   let t0 := ((if String.eqb (DocumentLoad.readyState b) "complete"
               then DocumentLoad.emitNavigationSpan b else mret tt) t).2 in
   calls (DocumentLoad.setup b DocumentLoad.init t).2
   = calls t0
     ++ spans (DocumentLoad.location_href b) (DocumentLoad.paint_entries b)
          (fresh t0)
   /\ forall href entries t1,
       DocumentLoad.paintObserved href entries st t1 = (st, t1))
  /\ (DocumentLoad.paint_entries b = [] ->
      DocumentLoad.PerformanceObserver_defined b = true ->
      DocumentLoad.observable b "paint" = true ->
      forall href entries t1,
        emitted (DocumentLoad.paintObserved href entries st) t1
        = spans href entries (fresh t1)
        /\ (DocumentLoad.paintObserved href entries st t1).1
           = {| DocumentLoad.window_listeners :=
                  DocumentLoad.window_listeners st;
                DocumentLoad.paintObserver := None;
                DocumentLoad.observer := DocumentLoad.observer st |})
  /\ (forall href entries t1 href' entries' t2,
         let st1 := (DocumentLoad.paintObserved href entries st t1).1 in
         DocumentLoad.paintObserved href' entries' st1 t2 = (st1, t2)).
Proof.
  intros st navigationStart spans. split; [|split].
  - intros Hne t0. split.
    + unfold DocumentLoad.setup. rewrite !bind_run. fold t0.
      destruct (DocumentLoad.paint_entries b) as [|entry rest] eqn:Hp;
        [done|].
      cbn [length Nat.ltb Nat.leb mret M_ret fst snd]. fold navigationStart.
      by destruct (emitPaintSpans_calls_exact (DocumentLoad.location_href b)
                     (entry :: rest) navigationStart t0) as [-> _].
    + intros href entries t1. unfold DocumentLoad.paintObserved.
      assert (DocumentLoad.paintObserver st = None) as ->; [|done].
      unfold st. rewrite setup_state. cbn [DocumentLoad.paintObserver].
      by destruct (DocumentLoad.paint_entries b).
  - intros Hp Hdef Hobs href entries t1.
    assert (E : DocumentLoad.paintObserver st
                = Some {| DocumentLoad.navigationStart := navigationStart;
                          DocumentLoad.observing := true |}).
    { unfold st. rewrite setup_state. cbn [DocumentLoad.paintObserver].
      by rewrite Hp, Hdef, Hobs. }
    unfold DocumentLoad.paintObserved. rewrite E.
    cbn [DocumentLoad.navigationStart]. split.
    + apply emitted_app. rewrite bind_run. cbn [mret M_ret fst snd].
      by destruct (emitPaintSpans_calls_exact href entries navigationStart t1)
        as [-> _].
    + by rewrite bind_run.
  - intros href entries t1 href' entries' t2. cbv zeta. clearbody st.
    assert (H : DocumentLoad.paintObserver
                  (DocumentLoad.paintObserved href entries st t1).1 = None).
    { unfold DocumentLoad.paintObserved.
      destruct (DocumentLoad.paintObserver st) as [o|] eqn:E;
        [by rewrite !bind_run|exact E]. }
    unfold DocumentLoad.paintObserved at 1. by rewrite H.
Qed.

Lemma paint_spans_are_emitted_once_witness :
  let fp := {| DocumentLoad.name := "first-paint";
               DocumentLoad.entry_startTime := 120.5%float;
               DocumentLoad.element_tagName := None;
               DocumentLoad.size := None |} in
  let page :=
    {| DocumentLoad.readyState := "loading";
       DocumentLoad.location_href := "https://app.example/";
       DocumentLoad.navigation_entries := [];
       DocumentLoad.paint_entries := [];
       DocumentLoad.PerformanceObserver_defined := true;
       DocumentLoad.observable := fun _ => true |} in
  let st := (DocumentLoad.setup page DocumentLoad.init new_tracer).1 in
  let first := DocumentLoad.paintObserved "https://app.example/" [fp] st in
  emitted (DocumentLoad.setup page DocumentLoad.init) new_tracer = []
  /\ emitted first new_tracer
     = [ StartSpan 0 "first-paint" (Some 0%float)
           [("document.url", AStr "https://app.example/");
            ("paint.duration_ms", ANum 120.5%float)];
         EndSpan 0 (Some 120.5%float) ]
  /\ DocumentLoad.paintObserved "https://app.example/" [fp]
       (first new_tracer).1 (first new_tracer).2
     = first new_tracer.
Proof.
  intros fp page st first. split; [reflexivity|]. split.
  - exact (proj1 (proj1 (proj2 (paint_spans_are_emitted_once page new_tracer))
                   eq_refl eq_refl eq_refl "https://app.example/" [fp]
                   new_tracer)).
  - exact (proj2 (proj2 (paint_spans_are_emitted_once page new_tracer))
             "https://app.example/" [fp] new_tracer
             "https://app.example/" [fp] (first new_tracer).2).
Defined.

(** X16. [teardown] only silences the largest-contentful-paint observer:
    after it, an observer callback emits nothing, but the "load" listener
    that [setup] registered on a page still loading is still there and
    emits the navigation span when "load" fires, and the paint observer is
    as [setup] left it. *)
Theorem documentload_teardown_only_stops_lcp
    (b : DocumentLoad.Browser) (t : Tracer) :
  DocumentLoad.readyState b <> "complete" ->
  let st0 := (DocumentLoad.setup b DocumentLoad.init t).1 in
  let st := DocumentLoad.teardown st0 in
  (forall href entries t',
      DocumentLoad.lcpObserved href entries st t' = (tt, t'))
  /\ DocumentLoad.paintObserver st = DocumentLoad.paintObserver st0
  /\ forall b' t' navigation rest,
      DocumentLoad.navigation_entries b' = navigation :: rest ->
      exists attributes,
        emitted (DocumentLoad.fire "load" b' st) t'
        = [ StartSpan (fresh t') "document.load"
              (Some (DocumentLoad.startTime navigation)) attributes;
            EndSpan (fresh t')
              (Some (DocumentLoad.loadEventEnd navigation)) ].
Proof.
  intros Hready%String.eqb_neq st0 st. unfold st, st0.
  rewrite setup_state, Hready. unfold DocumentLoad.teardown.
  cbn [DocumentLoad.window_listeners DocumentLoad.paintObserver
       DocumentLoad.observer].
  split; [done|]. split; [done|].
  intros b' t' navigation rest Hnav.
  exact (proj1 (fire_load_once _ None b' t' navigation rest Hnav)).
Qed.

Lemma documentload_teardown_only_stops_lcp_witness :
  let navigation :=
    {| DocumentLoad.startTime := 0%float;
       DocumentLoad.type := "navigate";
       DocumentLoad.redirectCount := 0%float;
       DocumentLoad.domainLookupStart := 2%float;
       DocumentLoad.domainLookupEnd := 10%float;
       DocumentLoad.connectStart := 10%float;
       DocumentLoad.connectEnd := 31.5%float;
       DocumentLoad.secureConnectionStart := 0%float;
       DocumentLoad.requestStart := 32%float;
       DocumentLoad.responseStart := 80.25%float;
       DocumentLoad.responseEnd := 95%float;
       DocumentLoad.domInteractive := 410%float;
       DocumentLoad.domContentLoadedEventEnd := 455%float;
       DocumentLoad.loadEventEnd := 0%float;
       DocumentLoad.transferSize := 5120%float;
       DocumentLoad.decodedBodySize := 20480%float |} in
  let page :=
    {| DocumentLoad.readyState := "interactive";
       DocumentLoad.location_href := "https://app.example/";
       DocumentLoad.navigation_entries := [navigation];
       DocumentLoad.paint_entries := [];
       DocumentLoad.PerformanceObserver_defined := true;
       DocumentLoad.observable := fun _ => true |} in
  let st := DocumentLoad.teardown
              (DocumentLoad.setup page DocumentLoad.init new_tracer).1 in
  exists attributes,
    emitted (DocumentLoad.fire "load" page st) new_tracer
    = [ StartSpan 0 "document.load" (Some 0%float) attributes;
        EndSpan 0 (Some 0%float) ].
Proof.
  intros navigation page st.
  assert (H : DocumentLoad.readyState page <> "complete") by discriminate.
  exact (proj2 (proj2 (documentload_teardown_only_stops_lcp page new_tracer H))
           page new_tracer navigation [] eq_refl).
Defined.

(** X17. Each callback of the largest-contentful-paint observer emits one
    span, for the last entry of its list only: it starts at the
    [navigationStart] that [setup] captured (the navigation entry's
    [startTime], or 0 when the timeline had none), ends at that entry's
    start time, and carries the element's tag name and the size, with ""
    and 0 standing in for missing ones.  An empty list emits nothing, and
    nothing is emitted at all where the observer could not be set up. *)
Theorem lcp_span_for_latest_candidate
    (b : DocumentLoad.Browser) (t t' : Tracer) (href : string)
    (entries : list DocumentLoad.PerformanceEntry)
    (lcp : DocumentLoad.PerformanceEntry) :
  let st := (DocumentLoad.setup b DocumentLoad.init t).1 in
  let navigationStart :=
    match DocumentLoad.navigation_entries b with
    | n :: _ => DocumentLoad.startTime n
    | [] => 0%float
    end in
  (DocumentLoad.PerformanceObserver_defined b = true ->
   DocumentLoad.observable b "largest-contentful-paint" = true ->
   emitted (DocumentLoad.lcpObserved href (entries ++ [lcp]) st) t'
   = [ StartSpan (fresh t') "largest-contentful-paint" (Some navigationStart)
         [("document.url", AStr href);
          ("lcp.duration_ms", ANum (DocumentLoad.entry_startTime lcp));
          ("lcp.element",
           AStr (match DocumentLoad.element_tagName lcp with
                 | Some tag => tag
                 | None => ""
                 end));
          ("lcp.size",
           ANum (match DocumentLoad.size lcp with
                 | Some n => n
                 | None => 0%float
                 end))];
       EndSpan (fresh t') (Some (DocumentLoad.entry_startTime lcp)) ])
  /\ DocumentLoad.lcpObserved href [] st t' = (tt, t')
  /\ (DocumentLoad.PerformanceObserver_defined b = false
      \/ DocumentLoad.observable b "largest-contentful-paint" = false ->
      DocumentLoad.lcpObserved href (entries ++ [lcp]) st t' = (tt, t')).
Proof.
  intros st navigationStart. unfold st. rewrite setup_state.
  unfold DocumentLoad.lcpObserved. cbn [DocumentLoad.observer].
  split; [|split].
  - intros -> ->. cbn [DocumentLoad.observing DocumentLoad.navigationStart when].
    apply emitted_app. unfold DocumentLoad.emitLcpSpan. rewrite last_snoc.
    run_tracer. rewrite <- app_assoc. cbn [app].
    by destruct (DocumentLoad.element_tagName lcp), (DocumentLoad.size lcp).
  - destruct (DocumentLoad.PerformanceObserver_defined b); [|done].
    cbn [DocumentLoad.observing].
    by destruct (DocumentLoad.observable b "largest-contentful-paint").
  - intros [->| ->]; [done|].
    by destruct (DocumentLoad.PerformanceObserver_defined b).
Qed.

Lemma lcp_span_for_latest_candidate_witness :
  let hero size :=
    {| DocumentLoad.name := "";
       DocumentLoad.entry_startTime := 900%float;
       DocumentLoad.element_tagName := Some "IMG";
       DocumentLoad.size := Some size |} in
  let page :=
    {| DocumentLoad.readyState := "complete";
       DocumentLoad.location_href := "https://app.example/";
       DocumentLoad.navigation_entries := [];
       DocumentLoad.paint_entries := [];
       DocumentLoad.PerformanceObserver_defined := true;
       DocumentLoad.observable := fun _ => true |} in
  let st := (DocumentLoad.setup page DocumentLoad.init new_tracer).1 in
  emitted (DocumentLoad.lcpObserved "https://app.example/"
             [hero 100%float; hero 4000%float] st) new_tracer
  = [ StartSpan 0 "largest-contentful-paint" (Some 0%float)
        [("document.url", AStr "https://app.example/");
         ("lcp.duration_ms", ANum 900%float);
         ("lcp.element", AStr "IMG");
         ("lcp.size", ANum 4000%float)];
      EndSpan 0 (Some 900%float) ].
Proof.
  intros hero page st.
  exact (proj1 (lcp_span_for_latest_candidate page new_tracer new_tracer
                  "https://app.example/" [hero 100%float] (hero 4000%float))
           eq_refl eq_refl).
Defined.
